(** * A frame relay: one capture loop, many stream sessions, one controller

    Shallow embedding of [app.py]: the shared dictionary [app_state], the
    capture loop [video_stream_loop], the generator [generate_frames] behind
    [/video_feed] and the request handler [start_stream].

    The program is concurrent, so it is embedded as an interleaving
    transition system.  Every thread of the program is a program counter
    named after the source line it is about to run; an [action] picks the
    thread that moves and carries what the outside world decides (whether a
    source opens, what a read or an encode returns).  [step] is a function,
    so executions can be evaluated.

    Time is discrete.  One tick is the pacing interval [time.sleep(1/30)];
    the retry backoff [time.sleep(2)] and the bound of
    [join(timeout=2)] are 60 ticks each.  A sleeping thread records the tick
    at which it may wake and cannot move before it; it may move later (the
    scheduler may delay any thread).

    Requests to [/start_stream] are served one after another: a new request
    is accepted only when no handler is running. *)

From Stdlib Require Import ZArith String Lia DecimalString.
From Stdlib.Strings Require Import Byte.
From stdpp Require Import base tactics option list.

Local Open Scope nat_scope.

(** * Part I: the program *)

(** ** Data *)

(** Python [bytes]. *)
Definition bytes := list byte.

(** A decoded image as returned by [read()]; its content is opaque here. *)
Definition frame := list byte.

(** [stream_url]: a device index or a URI. *)
Inductive source :=
| Device (index : Z)
| Uri (url : string).

(** A [cv2.VideoCapture] object: what it was built from, whether the source
    could be opened, and how many times [release()] was called on it. *)
Record VideoCapture := mkCapture {
  vc_source : source;
  vc_opened : bool;
  vc_released : nat
}.

Definition isOpened (vc : VideoCapture) : bool :=
  vc_opened vc && Nat.eqb (vc_released vc) 0.

Definition release (vc : VideoCapture) : VideoCapture :=
  mkCapture (vc_source vc) (vc_opened vc) (S (vc_released vc)).

(** [read()] on a capture that is not open fails whatever the source has. *)
Definition read (vc : VideoCapture) (outcome : option frame) : option frame :=
  if isOpened vc then outcome else None.

(** Durations, in ticks of 1/30 time unit. *)
Definition pacing : nat := 1.
Definition backoff : nat := 60.
Definition join_timeout : nat := 60.

(** Who holds [app_state["lock"]]. *)
Inductive owner :=
| Producer (t : nat)
| Consumer (g : nat).

(** The dictionary [app_state] (lines 15-21).  Threads and captures are
    referred to by their index in the lists of [sys] below. *)
Record app_state := mkApp {
  capture_thread : option nat;
  video_capture : option nat;
  output_frame : option bytes;
  lock : option owner;
  shutdown_flag : bool
}.

(** Program counter of one [video_stream_loop] thread. *)
Inductive loop_pc :=
| LHead                  (* line 29: test of the shutdown flag *)
| LCapture               (* line 30: is there a capture *)
| LRead                  (* line 31: read() *)
| LEncode (f : frame)    (* line 33: imencode *)
| LLock (b : bytes)      (* line 35: waiting for the lock *)
| LStore (b : bytes)     (* line 36: lock held, about to store *)
| LUnlock                (* leaving the with block of line 35 *)
| LBackoff (wake : nat)  (* line 39: time.sleep(2) *)
| LPace (wake : nat)     (* line 40: time.sleep(1/30) *)
| LExit.                 (* line 42: the thread has returned *)

(** Program counter of one [generate_frames] generator. *)
Inductive gen_pc :=
| GLock                  (* line 49: waiting for the lock *)
| GTest                  (* line 50: lock held, test of the slot *)
| GUnlock (b : bytes)    (* line 52 done, leaving the with block *)
| GYield (b : bytes)     (* line 54: about to yield the chunk *)
| GSuspended             (* suspended at the yield *)
| GPace (wake : nat)     (* line 56: time.sleep(1/30) *)
| GClosed.               (* the connection is gone *)

(** Program counter of the [start_stream] handler. *)
Inductive handler_pc :=
| HTest (url : source)                   (* line 71 *)
| HSignal (url : source)                 (* line 72 *)
| HJoin (url : source) (deadline : nat)  (* line 73 *)
| HRelease (url : source)                (* lines 74-75 *)
| HClear (url : source)                  (* line 77 *)
| HOpen (url : source)                   (* line 78 *)
| HCheck (url : source)                  (* line 80 *)
| HSpawn (url : source).                 (* lines 84-88 *)

Record sys := mkSys {
  app : app_state;
  clock : nat;
  threads : list loop_pc;
  captures : list VideoCapture;
  sessions : list gen_pc;
  handler : option handler_pc;
  calls : nat   (* requests accepted so far; tags the handler's events *)
}.

(** ** What an execution shows *)

Record response := mkResponse {
  code : nat;
  status : string;
  message : string
}.

Definition show_source (url : source) : string :=
  match url with
  | Device n => NilZero.string_of_int (Z.to_int n)
  | Uri u => u
  end.

(** Line 82. *)
Definition error_response : response :=
  mkResponse 400 "error" "Could not open video source.".

(** Line 88. *)
Definition success_response (url : source) : response :=
  mkResponse 200 "success" ("Stream started from " ++ show_source url).

(** What the handler does, in program order. *)
Inductive hevent :=
| HvBegin (url : source)
| HvTest (alive : bool)
| HvSignal (t : nat)
| HvJoin (t : nat) (timed_out : bool)
| HvRelease (h : nat)
| HvClear
| HvOpen (h : nat)
| HvCheck (h : nat) (opened : bool)
| HvSpawn (t : nat)
| HvReturn (r : response).

Inductive event :=
| EvHandler (call : nat) (e : hevent)
| EvPublish (t : nat) (b : bytes)
| EvSnapshot (g : nat) (v : option bytes)
| EvYield (g : nat) (chunk : bytes)
| EvExit (t : nat).

Inductive action :=
| Tick                                 (* one pacing interval passes *)
| Loop (t : nat)                       (* capture loop [t] moves *)
| Read (t : nat) (r : option frame)    (* line 31, with what the source gives *)
| Encode (t : nat) (r : option bytes)  (* line 33, with what imencode gives *)
| Connect                              (* GET /video_feed *)
| Session (g : nat)                    (* generator [g] moves *)
| Disconnect (g : nat)                 (* the viewer of [g] goes away *)
| Request (url : source)               (* POST /start_stream *)
| Handler                              (* the handler moves *)
| Open (ok : bool).                    (* line 78, with whether the source opens *)

(** ** Field updates *)

Definition set_capture_thread (v : option nat) (a : app_state) : app_state :=
  mkApp v (video_capture a) (output_frame a) (lock a) (shutdown_flag a).
Definition set_video_capture (v : option nat) (a : app_state) : app_state :=
  mkApp (capture_thread a) v (output_frame a) (lock a) (shutdown_flag a).
Definition set_output_frame (v : option bytes) (a : app_state) : app_state :=
  mkApp (capture_thread a) (video_capture a) v (lock a) (shutdown_flag a).
Definition set_lock (v : option owner) (a : app_state) : app_state :=
  mkApp (capture_thread a) (video_capture a) (output_frame a) v (shutdown_flag a).
Definition set_shutdown_flag (v : bool) (a : app_state) : app_state :=
  mkApp (capture_thread a) (video_capture a) (output_frame a) (lock a) v.

Definition with_app (f : app_state → app_state) (s : sys) : sys :=
  mkSys (f (app s)) (clock s) (threads s) (captures s) (sessions s) (handler s) (calls s).
Definition with_clock (n : nat) (s : sys) : sys :=
  mkSys (app s) n (threads s) (captures s) (sessions s) (handler s) (calls s).
Definition with_threads (l : list loop_pc) (s : sys) : sys :=
  mkSys (app s) (clock s) l (captures s) (sessions s) (handler s) (calls s).
Definition with_captures (l : list VideoCapture) (s : sys) : sys :=
  mkSys (app s) (clock s) (threads s) l (sessions s) (handler s) (calls s).
Definition with_sessions (l : list gen_pc) (s : sys) : sys :=
  mkSys (app s) (clock s) (threads s) (captures s) l (handler s) (calls s).
Definition with_handler (h : option handler_pc) (s : sys) : sys :=
  mkSys (app s) (clock s) (threads s) (captures s) (sessions s) h (calls s).
Definition with_calls (n : nat) (s : sys) : sys :=
  mkSys (app s) (clock s) (threads s) (captures s) (sessions s) (handler s) n.

Definition goto (t : nat) (pc : loop_pc) (s : sys) : sys :=
  with_threads (<[t := pc]> (threads s)) s.
Definition ggoto (g : nat) (pc : gen_pc) (s : sys) : sys :=
  with_sessions (<[g := pc]> (sessions s)) s.
Definition hgoto (pc : handler_pc) (s : sys) : sys :=
  with_handler (Some pc) s.

(** ** The capture loop, lines 25-42 *)

(** [Thread.is_alive()]. *)
Definition running (pc : loop_pc) : bool :=
  match pc with LExit => false | _ => true end.

Definition is_alive (s : sys) (t : nat) : bool :=
  match threads s !! t with
  | Some pc => running pc
  | None => false
  end.

Definition loop_step (s : sys) (t : nat) (pc : loop_pc) : option (sys * list event) :=
  match pc with
  | LHead =>
      if shutdown_flag (app s)
      then Some (goto t LExit s, [EvExit t])
      else Some (goto t LCapture s, [])
  | LCapture =>
      match video_capture (app s) with
      | Some _ => Some (goto t LRead s, [])
      | None => Some (goto t (LPace (clock s + pacing)) s, [])
      end
  | LLock b =>
      match lock (app s) with
      | None => Some (goto t (LStore b) (with_app (set_lock (Some (Producer t))) s), [])
      | Some _ => None
      end
  | LStore b =>
      Some (goto t LUnlock (with_app (set_output_frame (Some b)) s), [EvPublish t b])
  | LUnlock =>
      Some (goto t (LPace (clock s + pacing)) (with_app (set_lock None) s), [])
  | LBackoff wake =>
      if wake <=? clock s
      then Some (goto t (LPace (clock s + pacing)) s, [])
      else None
  | LPace wake =>
      if wake <=? clock s then Some (goto t LHead s, []) else None
  | LRead | LEncode _ | LExit => None
  end.

(** Line 31 and the test of line 32.  The capture is looked up again in
    [app_state], as the source does. *)
Definition read_step (s : sys) (t : nat) (pc : loop_pc) (r : option frame)
  : option (sys * list event) :=
  match pc with
  | LRead =>
      h ← video_capture (app s);
      vc ← captures s !! h;
      match read vc r with
      | Some f => Some (goto t (LEncode f) s, [])
      | None => Some (goto t (LBackoff (clock s + backoff)) s, [])
      end
  | _ => None
  end.

(** Line 33 and the test of line 34. *)
Definition encode_step (s : sys) (t : nat) (pc : loop_pc) (r : option bytes)
  : option (sys * list event) :=
  match pc with
  | LEncode _ =>
      match r with
      | Some b => Some (goto t (LLock b) s, [])
      | None => Some (goto t (LPace (clock s + pacing)) s, [])
      end
  | _ => None
  end.

(** ** The generator, lines 45-56 *)

Definition crlf : bytes := [x0d; x0a].

(** Lines 54-55. *)
Definition chunk (frame_bytes : bytes) : bytes :=
  (list_byte_of_string "--frame" ++ crlf)
  ++ (list_byte_of_string "Content-Type: image/jpeg" ++ crlf ++ crlf)
  ++ frame_bytes ++ crlf.

Definition session_step (s : sys) (g : nat) (pc : gen_pc) : option (sys * list event) :=
  match pc with
  | GLock =>
      match lock (app s) with
      | None => Some (ggoto g GTest (with_app (set_lock (Some (Consumer g))) s), [])
      | Some _ => None
      end
  | GTest =>
      match output_frame (app s) with
      | None => Some (ggoto g GLock (with_app (set_lock None) s), [EvSnapshot g None])
      | Some b => Some (ggoto g (GUnlock b) s, [EvSnapshot g (Some b)])
      end
  | GUnlock b => Some (ggoto g (GYield b) (with_app (set_lock None) s), [])
  | GYield b => Some (ggoto g GSuspended s, [EvYield g (chunk b)])
  | GSuspended => Some (ggoto g (GPace (clock s + pacing)) s, [])
  | GPace wake => if wake <=? clock s then Some (ggoto g GLock s, []) else None
  | GClosed => None
  end.

(** A generator can only be closed where it is suspended. *)
Definition disconnect_step (s : sys) (g : nat) (pc : gen_pc) : option (sys * list event) :=
  match pc with
  | GSuspended => Some (ggoto g GClosed s, [])
  | _ => None
  end.

(** ** The handler, lines 65-88 *)

Definition hev (s : sys) (e : hevent) : event := EvHandler (calls s) e.

Definition handler_step (s : sys) (pc : handler_pc) : option (sys * list event) :=
  match pc with
  | HTest url =>
      let alive :=
        match capture_thread (app s) with
        | Some t => is_alive s t
        | None => false
        end in
      Some (hgoto (if alive then HSignal url else HClear url) s, [hev s (HvTest alive)])
  | HSignal url =>
      t ← capture_thread (app s);
      Some (hgoto (HJoin url (clock s + join_timeout))
              (with_app (set_shutdown_flag true) s), [hev s (HvSignal t)])
  | HJoin url deadline =>
      t ← capture_thread (app s);
      if is_alive s t
      then if deadline <=? clock s
           then Some (hgoto (HRelease url) s, [hev s (HvJoin t true)])
           else None
      else Some (hgoto (HRelease url) s, [hev s (HvJoin t false)])
  | HRelease url =>
      match video_capture (app s) with
      | Some h =>
          Some (hgoto (HClear url) (with_captures (alter release h (captures s)) s),
                [hev s (HvRelease h)])
      | None => Some (hgoto (HClear url) s, [])
      end
  | HClear url =>
      Some (hgoto (HOpen url) (with_app (set_shutdown_flag false) s), [hev s HvClear])
  | HOpen _ => None
  | HCheck url =>
      h ← video_capture (app s);
      vc ← captures s !! h;
      if isOpened vc
      then Some (hgoto (HSpawn url) s, [hev s (HvCheck h true)])
      else Some (with_handler None s,
                 [hev s (HvCheck h false); hev s (HvReturn error_response)])
  | HSpawn url =>
      let t := length (threads s) in
      Some (with_handler None
              (with_threads (threads s ++ [LHead])
                 (with_app (set_capture_thread (Some t)) s)),
            [hev s (HvSpawn t); hev s (HvReturn (success_response url))])
  end.

(** Line 78: a new capture object replaces the one in [app_state]. *)
Definition open_step (s : sys) (pc : handler_pc) (ok : bool) : option (sys * list event) :=
  match pc with
  | HOpen url =>
      let h := length (captures s) in
      Some (hgoto (HCheck url)
              (with_captures (captures s ++ [mkCapture url ok 0])
                 (with_app (set_video_capture (Some h)) s)),
            [hev s (HvOpen h)])
  | _ => None
  end.

(** Line 69: a request is taken only when no handler is running. *)
Definition request_step (s : sys) (url : source) : option (sys * list event) :=
  match handler s with
  | None =>
      let c := S (calls s) in
      Some (with_calls c (hgoto (HTest url) s), [EvHandler c (HvBegin url)])
  | Some _ => None
  end.

(** ** The whole system *)

Definition step (s : sys) (a : action) : option (sys * list event) :=
  match a with
  | Tick => Some (with_clock (S (clock s)) s, [])
  | Loop t => pc ← threads s !! t; loop_step s t pc
  | Read t r => pc ← threads s !! t; read_step s t pc r
  | Encode t r => pc ← threads s !! t; encode_step s t pc r
  | Connect => Some (with_sessions (sessions s ++ [GLock]) s, [])
  | Session g => pc ← sessions s !! g; session_step s g pc
  | Disconnect g => pc ← sessions s !! g; disconnect_step s g pc
  | Request url => request_step s url
  | Handler => pc ← handler s; handler_step s pc
  | Open ok => pc ← handler s; open_step s pc ok
  end.

Fixpoint exec (s : sys) (acts : list action) : option (sys * list event) :=
  match acts with
  | [] => Some (s, [])
  | a :: acts' =>
      match step s a with
      | Some (s1, e1) =>
          match exec s1 acts' with
          | Some (s2, e2) => Some (s2, e1 ++ e2)
          | None => None
          end
      | None => None
      end
  end.

(** Lines 15-21, at process start. *)
Definition app0 : app_state := mkApp None None None None false.
Definition sys0 : sys := mkSys app0 0 [] [] [] None 0.

(** States of the running program, with everything it has shown so far. *)
Inductive reachable : sys → list event → Prop :=
| reach_init : reachable sys0 []
| reach_step s log a s' evs :
    reachable s log → step s a = Some (s', evs) → reachable s' (log ++ evs).

(** * Part II: what is stated about it *)

(** ** Case analysis on steps *)

(** Case analysis on one step: every way [step] can succeed. *)
Ltac step_inv H :=
  unfold step, loop_step, read_step, encode_step, session_step,
    disconnect_step, handler_step, open_step, request_step, hev in H;
  repeat (simplify_option_eq || case_match).

Ltac unfold_updates :=
  unfold goto, ggoto, hgoto, with_app, with_clock, with_threads, with_captures,
    with_sessions, with_handler, with_calls, set_capture_thread,
    set_video_capture, set_output_frame, set_lock, set_shutdown_flag in *;
  simpl in *.

(** ** The lock *)

(** Where a thread is between acquiring and releasing the lock. *)
Definition loop_critical (pc : loop_pc) : bool :=
  match pc with LStore _ | LUnlock => true | _ => false end.

Definition gen_critical (pc : gen_pc) : bool :=
  match pc with GTest | GUnlock _ => true | _ => false end.

(** Where a thread is suspended: asleep, backing off, or yielding a chunk. *)
Definition loop_suspended (pc : loop_pc) : bool :=
  match pc with LBackoff _ | LPace _ => true | _ => false end.

Definition gen_suspended (pc : gen_pc) : bool :=
  match pc with GYield _ | GSuspended | GPace _ => true | _ => false end.

Definition holder_critical (s : sys) : Prop :=
  match lock (app s) with
  | None => True
  | Some (Producer t) => ∃ pc, threads s !! t = Some pc ∧ loop_critical pc = true
  | Some (Consumer g) => ∃ pc, sessions s !! g = Some pc ∧ gen_critical pc = true
  end.

(** ** The latest-frame slot *)

(** The frames published so far, oldest first, and the latest of them. *)
Definition published (log : list event) : list bytes :=
  omap (λ e, match e with EvPublish _ b => Some b | _ => None end) log.

Definition latest (log : list event) : option bytes := last (published log).

(** What generator [g] has read from the slot so far, oldest first. *)
Definition snapshots (g : nat) (log : list event) : list (option bytes) :=
  omap (λ e, match e with
             | EvSnapshot g' v => if decide (g' = g) then Some v else None
             | _ => None
             end) log.

(** A property of every event of a log, given what came before it. *)
Definition each_event (P : list event → event → Prop) (log : list event) : Prop :=
  ∀ i e, log !! i = Some e → P (take i log) e.

(** What a read of the slot returns and what a chunk is made of. *)
Definition relay_event (pre : list event) (e : event) : Prop :=
  match e with
  | EvSnapshot g v => v = latest pre
  | EvYield g c => ∃ b, c = chunk b ∧ last (snapshots g pre) = Some (Some b)
  | _ => True
  end.

(** The frame a generator carries from its read of the slot to its yield. *)
Definition carried (pc : gen_pc) : option bytes :=
  match pc with GUnlock b | GYield b => Some b | _ => None end.

Record relay_inv (s : sys) (log : list event) : Prop := {
  slot_latest : output_frame (app s) = latest log;
  carried_snapshot : ∀ g pc b,
    sessions s !! g = Some pc → carried pc = Some b →
    last (snapshots g log) = Some (Some b);
  log_relay : each_event relay_event log
}.

(** ** References are in range *)

Record wf (s : sys) : Prop := {
  wf_thread : ∀ t, capture_thread (app s) = Some t → t < length (threads s);
  wf_capture : ∀ h, video_capture (app s) = Some h → h < length (captures s);
  wf_started : threads s ≠ [] → is_Some (video_capture (app s));
  wf_handler : ∀ pc, handler s = Some pc →
    match pc with
    | HSignal _ | HJoin _ _ | HRelease _ => is_Some (capture_thread (app s))
    | HCheck _ | HSpawn _ => is_Some (video_capture (app s))
    | _ => True
    end
}.

(** ** The capture loop, one thread at a time *)


(** ** Cancellation latency *)

(** The earliest tick at which a loop at [pc] can test the flag again. *)
Definition earliest_head (now : nat) (pc : loop_pc) : nat :=
  match pc with
  | LBackoff wake => max wake now + pacing
  | LPace wake => max wake now
  | _ => now
  end.

(** From the backoff to the exit with no delay: the rest of the backoff, the
    pacing sleep, the test of the flag. *)
Definition exit_schedule (t : nat) (remaining : nat) : list action :=
  replicate remaining Tick ++ [Loop t] ++ replicate pacing Tick ++ [Loop t; Loop t].

(** What C3 asks for, with [read_time] ticks allowed for the frame read: a
    loop that is in its backoff when the flag is set can exit within
    [read_time] plus one pacing interval. *)
Definition prompt_exit (read_time : nat) : Prop :=
  ∀ s log t w,
    reachable s log →
    threads s !! t = Some (LBackoff w) → clock s < w →
    shutdown_flag (app s) = true →
    ∃ acts s' evs,
      exec s acts = Some (s', evs)
      ∧ threads s' !! t = Some LExit
      ∧ clock s' ≤ clock s + read_time + pacing.

(** ** How many capture loops run *)


(** [join(timeout=2)] came back with the thread still alive. *)
Definition timed_out (e : event) : bool :=
  match e with
  | EvHandler _ (HvJoin _ true) => true
  | _ => false
  end.





(** ** Releasing capture objects *)

(** Where the handler is with respect to the capture object in [app_state]. *)
Inductive phase := Idle | Stopping | Swapping | Starting.

Definition phase_of (h : option handler_pc) : phase :=
  match h with
  | None | Some (HTest _) => Idle
  | Some (HSignal _ | HJoin _ _ | HRelease _) => Stopping
  | Some (HClear _ | HOpen _) => Swapping
  | Some (HCheck _ | HSpawn _) => Starting
  end.

(** Where the shutdown flag is known to be clear. *)
Definition flag_clear_at (h : option handler_pc) : bool :=
  match h with
  | None | Some (HTest _ | HOpen _ | HCheck _ | HSpawn _) => true
  | _ => false
  end.

Definition released_if_opened (vc : VideoCapture) : Prop :=
  vc_released vc ≤ 1 ∧ (vc_opened vc = true → vc_released vc = 1).

Definition current_ok (s : sys) (vc : VideoCapture) : Prop :=
  match phase_of (handler s) with
  | Idle =>
      vc_released vc = 0
      ∧ (vc_opened vc = true →
         ∃ t pc, capture_thread (app s) = Some t
                 ∧ threads s !! t = Some pc ∧ running pc = true)
  | Stopping | Starting => vc_released vc = 0
  | Swapping => released_if_opened vc
  end.

Record handle_inv (s : sys) : Prop := {
  replaced_released : ∀ h vc,
    captures s !! h = Some vc → video_capture (app s) ≠ Some h →
    released_if_opened vc;
  current_state : ∀ h vc,
    video_capture (app s) = Some h → captures s !! h = Some vc →
    current_ok s vc;
  flag_clear : flag_clear_at (handler s) = true → shutdown_flag (app s) = false
}.

(** The actions of the request handler. *)
Definition is_control (a : action) : bool :=
  match a with
  | Request _ | Handler | Open _ => true
  | _ => false
  end.

(** The fields of [handle_inv] a step does not bear on. *)
Ltac handle_fields Hold Hcur :=
  split; unfold current_ok, released_if_opened; simpl; try done;
  try (let h0 := fresh "h" in
       let vc0 := fresh "vc" in
       let H1 := fresh in
       let H2 := fresh in
       intros h0 vc0 H1 H2;
       first [ apply (Hold h0 vc0); [done|congruence]
             | apply (Hcur h0 vc0); [congruence|done] ]).


(** ** One call of [start_stream], as the log shows it *)

(** What call number [c] has done so far, in order. *)
Definition call_log (c : nat) (log : list event) : list hevent :=
  omap (λ e, match e with
             | EvHandler c' e => if decide (c' = c) then Some e else None
             | _ => None
             end) log.

(** The call up to line 77: the old loop was found dead, or it was signalled,
    joined and its capture released. *)
Definition stopped (url : source) (l : list hevent) : Prop :=
  l = [HvBegin url; HvTest false]
  ∨ ∃ t b h, l = [HvBegin url; HvTest true; HvSignal t; HvJoin t b; HvRelease h].

(** What a call has done when its handler is at [pc].  The thread it has
    signalled and the capture it has built are the ones in [app_state]. *)
Definition shown (a : app_state) (pc : handler_pc) (l : list hevent) : Prop :=
  match pc with
  | HTest url => l = [HvBegin url]
  | HSignal url => l = [HvBegin url; HvTest true]
  | HJoin url _ =>
      ∃ t, capture_thread a = Some t
           ∧ l = [HvBegin url; HvTest true; HvSignal t]
  | HRelease url => ∃ t b, l = [HvBegin url; HvTest true; HvSignal t; HvJoin t b]
  | HClear url => stopped url l
  | HOpen url => ∃ l0, stopped url l0 ∧ l = l0 ++ [HvClear]
  | HCheck url =>
      ∃ l0 h, stopped url l0 ∧ video_capture a = Some h
              ∧ l = l0 ++ [HvClear; HvOpen h]
  | HSpawn url =>
      ∃ l0 h, stopped url l0 ∧ l = l0 ++ [HvClear; HvOpen h; HvCheck h true]
  end.

(** What a call that has returned has done. *)
Definition completed (l : list hevent) : Prop :=
  ∃ url l0 h, stopped url l0
    ∧ (l = l0 ++ [HvClear; HvOpen h; HvCheck h false; HvReturn error_response]
       ∨ ∃ t, l = l0 ++ [HvClear; HvOpen h; HvCheck h true; HvSpawn t;
                         HvReturn (success_response url)]).

Record call_inv (s : sys) (log : list event) : Prop := {
  later_calls : ∀ c, calls s < c → call_log c log = [];
  no_call_zero : call_log 0 log = [];
  earlier_calls : ∀ c, 0 < c → c < calls s → completed (call_log c log);
  this_call :
    match handler s with
    | Some pc => 0 < calls s ∧ shown (app s) pc (call_log (calls s) log)
    | None => calls s = 0 ∨ completed (call_log (calls s) log)
    end
}.



(** Every shape a call can have. *)
Definition call_shape (l : list hevent) : Prop :=
  l = [] ∨ (∃ a pc, shown a pc l) ∨ completed l.

(** Split a shape into the lists it stands for. *)
Ltac shape_cases H :=
  let Hst := fresh "Hst" in
  destruct H as [->|[(? & pc & H)|(? & ? & ? & Hst & [->|[? ->]])]];
  [ | destruct pc; simpl in H;
      repeat match goal with
      | H' : ∃ _, _ |- _ => destruct H' as [? H']
      | H' : _ ∧ _ |- _ => destruct H' as [? H']
      end; subst
    | | ];
  repeat match goal with
  | H' : stopped _ _ |- _ => destruct H' as [->|(? & ? & ? & ->)]
  end; simpl in *.

(** Look an event up in a list that is written out. *)
Ltac index_cases :=
  repeat match goal with
  | H : (_ :: _) !! ?i = Some _ |- _ => destruct i as [|i]; simplify_eq/=
  | H : [] !! _ = Some _ |- _ => by rewrite lookup_nil in H
  end.

(** ** A start that fails *)


(** ** Sample executions *)

Definition demo_frame : frame := [x2a].
Definition demo_jpeg (n : byte) : bytes := [xff; xd8; n; xff; xd9].

(** Start a stream from [url] on an idle relay. *)
Definition start_idle (url : source) (ok : bool) : list action :=
  [Request url; Handler; Handler; Open ok; Handler].

(** One pass of capture loop [t] that publishes [b] and goes back to the
    head of the loop. *)
Definition capture_pass (t : nat) (b : bytes) : list action :=
  [Loop t; Loop t; Read t (Some demo_frame); Encode t (Some b);
   Loop t; Loop t; Loop t; Tick; Loop t].

(** One chunk served by generator [g]. *)
Definition serve_chunk (g : nat) : list action :=
  [Session g; Session g; Session g; Session g].

(** A viewer polls before the first frame, then twice after it. *)
Definition polling_trace : list action :=
  [Connect; Session 0; Session 0]
  ++ start_idle (Device 0) true ++ [Handler]
  ++ capture_pass 0 (demo_jpeg x01)
  ++ serve_chunk 0 ++ [Session 0; Tick; Session 0] ++ serve_chunk 0.

Definition polling_run : sys * list event :=
  Eval vm_compute in default (sys0, []) (exec sys0 polling_trace).

(** A capture loop holding the lock while a viewer waits for it. *)
Definition storing_trace : list action :=
  [Connect] ++ start_idle (Device 0) true ++ [Handler]
  ++ [Loop 0; Loop 0; Read 0 (Some demo_frame); Encode 0 (Some (demo_jpeg x01));
      Loop 0].

Definition storing_run : sys * list event :=
  Eval vm_compute in default (sys0, []) (exec sys0 storing_trace).

(** After the first frame: a failed start, then a switch to another source. *)
Definition failed_restart_trace : list action :=
  [Request (Uri "bad://nowhere"); Handler; Handler; Loop 0;
   Handler; Handler; Handler; Open false; Handler].

Definition restart_trace : list action :=
  failed_restart_trace ++ start_idle (Uri "rtsp://b") true ++ [Handler].

Definition restart_run : sys * list event :=
  Eval vm_compute in default (sys0, []) (exec polling_run.1 restart_trace).



(** A read fails at tick 0; a switch is requested and the flag is set at
    tick 0, while the loop is in its backoff. *)
Definition cancelled_trace : list action :=
  start_idle (Device 0) true
  ++ [Handler; Loop 0; Loop 0; Read 0 None;
      Request (Uri "rtsp://b"); Handler; Handler].

Definition cancelled_run : sys * list event :=
  Eval vm_compute in default (sys0, []) (exec sys0 cancelled_trace).

(** A read fails at tick 0 and the loop backs off until tick 60.  A switch
    is requested at tick 0; its join gives up at tick 60, the handler clears
    the flag and spawns a second loop.  The first loop wakes at tick 60,
    paces until tick 61, finds the flag clear and goes on. *)
Definition overlap_trace : list action :=
  cancelled_trace ++ replicate join_timeout Tick
  ++ [Handler; Handler; Handler; Open true; Handler; Handler]
  ++ [Loop 0; Tick; Loop 0; Loop 0].

Definition overlap_run : sys * list event :=
  Eval vm_compute in default (sys0, []) (exec sys0 overlap_trace).








(** * Part II, continued: further properties *)

(** ** Mutual exclusion *)

(** Whoever is inside a with block is the holder of the lock. *)
Record mutex_inv (s : sys) : Prop := {
  producer_holds : ∀ t pc,
    threads s !! t = Some pc → loop_critical pc = true →
    lock (app s) = Some (Producer t);
  consumer_holds : ∀ g pc,
    sessions s !! g = Some pc → gen_critical pc = true →
    lock (app s) = Some (Consumer g)
}.

(** ** Between two calls *)

Definition no_request (acts : list action) : bool :=
  forallb (λ a, match a with Request _ => false | _ => true end) acts.

(** ** What [app_state] refers to *)


(** ** A call always returns *)



(** ** Pacing *)


(** The earliest tick at which a loop at [pc] can store a frame. *)
Definition earliest_publish (now : nat) (pc : loop_pc) : nat :=
  match pc with
  | LUnlock | LExit => now + pacing
  | LPace wake => max wake now
  | LBackoff wake => max wake now + pacing
  | _ => now
  end.

(** ** A loop that has exited *)

(** Nothing a thread shows comes after its exit. *)
Definition after_exit (pre : list event) (e : event) : Prop :=
  match e with
  | EvPublish t _ | EvExit t => EvExit t ∉ pre
  | _ => True
  end.

Record exit_inv (s : sys) (log : list event) : Prop := {
  exited_stays : ∀ t, EvExit t ∈ log → threads s !! t = Some LExit;
  log_after_exit : each_event after_exit log
}.

(** ** More sample executions *)

(** The stream of [polling_run] captures one more frame. *)
Definition steady_trace : list action := capture_pass 0 (demo_jpeg x02).

Definition steady_run : sys * list event :=
  Eval vm_compute in default (sys0, []) (exec polling_run.1 steady_trace).








(** The loop of [cancelled_run] sits out its backoff; the call that
    cancelled it times out, clears the flag and opens the new source; the
    loop then captures from it. *)
Definition recovered_trace : list action :=
  replicate backoff Tick
  ++ [Handler; Handler; Handler; Open true; Handler; Handler;
      Loop 0; Tick; Loop 0]
  ++ capture_pass 0 (demo_jpeg x02).

Definition recovered_run : sys * list event :=
  Eval vm_compute in default (sys0, []) (exec cancelled_run.1 recovered_trace).

(** * Part III: proofs *)

(** ** Executions *)

Lemma exec_app s acts1 acts2 :
  exec s (acts1 ++ acts2) =
  match exec s acts1 with
  | Some (s1, e1) =>
      match exec s1 acts2 with
      | Some (s2, e2) => Some (s2, e1 ++ e2)
      | None => None
      end
  | None => None
  end.
Proof.
  revert s. induction acts1 as [|a acts1 IH]; intros s; simpl.
  - destruct (exec s acts2) as [[s2 e2]|]; reflexivity.
  - destruct (step s a) as [[s1 e1]|]; [|reflexivity].
    rewrite IH. destruct (exec s1 acts1) as [[s2 e2]|]; [|reflexivity].
    destruct (exec s2 acts2) as [[s3 e3]|]; [|reflexivity].
    by rewrite (assoc_L (++)).
Qed.

Lemma exec_reachable s log acts s' evs :
  reachable s log → exec s acts = Some (s', evs) → reachable s' (log ++ evs).
Proof.
  intros Hr. revert s log Hr evs. induction acts as [|a acts IH]; intros s log Hr evs He.
  - simpl in He. simplify_eq. by rewrite (right_id_L [] (++)).
  - simpl in He. destruct (step s a) as [[s1 e1]|] eqn:Hs; [|done].
    destruct (exec s1 acts) as [[s2 e2]|] eqn:He2; [|done]. simplify_eq.
    rewrite (assoc_L (++)). eapply IH; [|done]. by eapply reach_step.
Qed.

Lemma exec_reachable0 acts s log :
  exec sys0 acts = Some (s, log) → reachable s log.
Proof. intros He. apply (exec_reachable sys0 [] acts s log reach_init He). Qed.

(** Reading a program counter back after a thread has moved. *)
Lemma lookup_moved {A} (l : list A) (i j : nat) (x y : A) :
  l !! i = Some x →
  <[i := y]> l !! j = if decide (i = j) then Some y else l !! j.
Proof.
  intros Hi. case_decide; subst.
  - apply list_lookup_insert_eq. by eapply lookup_lt_Some.
  - by apply list_lookup_insert_ne.
Qed.

Lemma lookup_spawned {A} (l : list A) (j : nat) (y : A) :
  (l ++ [y]) !! j = if decide (j = length l) then Some y else l !! j.
Proof.
  case_decide; subst.
  - by rewrite lookup_app_r, Nat.sub_diag by lia.
  - destruct (decide (j < length l)).
    + by rewrite lookup_app_l.
    + rewrite !lookup_ge_None_2; [done|lia|rewrite length_app; simpl; lia].
Qed.

(** ** The lock *)

Lemma holder_critical_step s a s' evs :
  step s a = Some (s', evs) → holder_critical s → holder_critical s'.
Proof.
  intros Hs Hi. unfold holder_critical in *.
  step_inv Hs; unfold_updates;
    repeat match goal with
    | H : lock _ = _ |- _ => rewrite H in *
    | H : ?l !! ?i = Some _ |- context [<[?i := ?y]> ?l !! ?j] =>
        rewrite (lookup_moved l i j _ y H)
    | |- context [(?l ++ [?y]) !! ?j] => rewrite (lookup_spawned l j y)
    end;
    try done; try (by eauto);
    repeat case_match; try done; simplify_eq;
    repeat match goal with
    | H : ∃ _, _ |- _ => destruct H as (? & ? & ?)
    | H : ?l !! ?i = Some _ |- context [<[?i := ?y]> ?l !! ?j] =>
        rewrite (lookup_moved l i j _ y H)
    | |- context [(?l ++ [?y]) !! ?j] => rewrite (lookup_spawned l j y)
    end;
    repeat case_decide; simplify_eq; eauto;
    try (exfalso; match goal with H : ?l !! length ?l = Some _ |- _ =>
           apply lookup_lt_Some in H; lia end).
Qed.

Lemma holder_critical_reachable s log : reachable s log → holder_critical s.
Proof.
  induction 1 as [|s log a s' evs _ IH Hs]; [exact I|].
  by eapply holder_critical_step.
Qed.

(** ** The latest-frame slot *)

(** One step either leaves the slot alone or is the store of line 36. *)
Lemma slot_step s a s' evs :
  step s a = Some (s', evs) →
  output_frame (app s') = output_frame (app s)
  ∨ ∃ t b, a = Loop t ∧ threads s !! t = Some (LStore b)
           ∧ output_frame (app s') = Some b ∧ evs = [EvPublish t b].
Proof.
  intros Hs. step_inv Hs; unfold_updates; eauto 10.
Qed.

(** Nothing but the store of line 36 shows a publish. *)
Lemma publish_step s a s' evs t b :
  step s a = Some (s', evs) → EvPublish t b ∈ evs →
  a = Loop t ∧ threads s !! t = Some (LStore b) ∧ output_frame (app s') = Some b
  ∧ evs = [EvPublish t b].
Proof.
  intros Hs Hin. step_inv Hs; unfold_updates;
    repeat (apply elem_of_cons in Hin as [Hin|Hin]; simplify_eq);
    try (by apply elem_of_nil in Hin); eauto.
Qed.

Lemma latest_app log evs :
  latest (log ++ evs) =
  match latest evs with Some b => Some b | None => latest log end.
Proof. unfold latest, published. by rewrite omap_app, last_app. Qed.

Lemma snapshots_app g log evs :
  last (snapshots g (log ++ evs)) =
  match last (snapshots g evs) with
  | Some v => Some v
  | None => last (snapshots g log)
  end.
Proof. unfold snapshots. by rewrite omap_app, last_app. Qed.

Lemma each_event_app P log evs :
  each_event P log →
  (∀ k e, evs !! k = Some e → P (log ++ take k evs) e) →
  each_event P (log ++ evs).
Proof.
  intros Hlog Hevs i e Hi. apply lookup_app_Some in Hi as [Hi|[Hle Hi]].
  - rewrite take_app_le by (apply lookup_lt_Some in Hi; lia). by apply Hlog.
  - rewrite take_app_ge by done. by apply Hevs.
Qed.

Lemma each_event_nil P log : each_event P log → each_event P (log ++ []).
Proof. by rewrite (right_id_L [] (++)). Qed.

Lemma each_event_snoc P log e :
  each_event P log → P log e → each_event P (log ++ [e]).
Proof.
  intros Hlog He. apply each_event_app; [done|].
  intros [|k] e' Hk; simplify_eq/=. by rewrite (right_id_L [] (++)).
Qed.

Lemma each_event_snoc2 P log e1 e2 :
  each_event P log → P log e1 → P (log ++ [e1]) e2 →
  each_event P (log ++ [e1; e2]).
Proof.
  intros Hlog H1 H2. apply each_event_app; [done|].
  intros [|[|k]] e' Hk; simplify_eq/=; [by rewrite (right_id_L [] (++))|done].
Qed.

Lemma relay_inv_step s log a s' evs :
  step s a = Some (s', evs) → relay_inv s log → relay_inv s' (log ++ evs).
Proof.
  intros Hs [Hslot Hcar Hlog].
  step_inv Hs; unfold_updates; split;
    repeat match goal with
    | |- each_event _ (_ ++ []) => by apply each_event_nil
    | |- each_event _ (_ ++ [_]) => apply each_event_snoc; [done|]
    | |- each_event _ (_ ++ [_; _]) => apply each_event_snoc2; [done|..]
    | |- relay_event _ _ => simpl; try done; try congruence
    | |- context [latest (_ ++ _)] => rewrite latest_app; simpl
    | |- ∀ g pc b, _ → _ → _ => intros g' pc' b' Hg' Hc'; simpl in Hg'
    | |- context [last (snapshots _ (_ ++ _))] =>
        rewrite snapshots_app; simpl
    | H : ?l !! ?i = Some _, H' : <[?i := ?y]> ?l !! ?j = Some _ |- _ =>
        rewrite (lookup_moved l i j _ y H) in H'
    | H' : (?l ++ [?y]) !! ?j = Some _ |- _ =>
        rewrite (lookup_spawned l j y) in H'
    end;
    repeat case_decide; simplify_eq/=; eauto; try congruence.
Qed.

Lemma relay_inv_reachable s log : reachable s log → relay_inv s log.
Proof.
  induction 1 as [|s log a s' evs _ IH Hs].
  - split; [done| |]; [intros g pc b Hg; by destruct g|by intros [|i] e Hi].
  - by eapply relay_inv_step.
Qed.

(** [latest], read off the log. *)
Lemma published_none (l : list event) :
  (∀ k t b, l !! k ≠ Some (EvPublish t b)) → published l = [].
Proof.
  induction l as [|e l IH]; intros Hno; [done|]. unfold published in *. simpl.
  destruct e; try (apply IH; intros k; apply (Hno (S k))).
  by destruct (Hno 0 t b).
Qed.

Lemma latest_none (l : list event) :
  (∀ k t b, l !! k ≠ Some (EvPublish t b)) → latest l = None.
Proof. intros Hno. unfold latest. by rewrite published_none. Qed.

Lemma latest_since (log : list event) j i t f :
  log !! j = Some (EvPublish t f) → j < i →
  (∀ k t' b', j < k → k < i → log !! k ≠ Some (EvPublish t' b')) →
  latest (take i log) = Some f.
Proof.
  intros Hj Hji Hno.
  assert (take i log !! j = Some (EvPublish t f)) as Hj'
    by (by rewrite lookup_take_lt).
  rewrite <-(take_drop_middle _ _ _ Hj'), latest_app.
  unfold latest at 1. unfold published. simpl. fold (published (drop (S j) (take i log))).
  rewrite published_none; [done|].
  intros k t' b'. rewrite lookup_drop, lookup_take. case_decide; [|done].
  apply Hno; lia.
Qed.

Lemma latest_unchanged (log : list event) i i' :
  i ≤ i' →
  (∀ k t b, i ≤ k → k < i' → log !! k ≠ Some (EvPublish t b)) →
  latest (take i' log) = latest (take i log).
Proof.
  intros Hle Hno.
  rewrite <-(take_drop i (take i' log)), take_take, Nat.min_l by done.
  rewrite latest_app, latest_none; [done|].
  intros k t b. rewrite lookup_drop, lookup_take. case_decide; [|done].
  apply Hno; lia.
Qed.

(** C4: the latest-frame slot is last-write-wins.  In every execution the
    slot holds the frame of the last publish; a read of the slot (lines
    50-52) made before any publish returns empty; a read made after a publish
    of [f] with no publish in between returns [f]; two reads with no publish
    between them return the same bytes; and the read itself never waits for
    a frame: with the lock held it goes through whatever the slot holds. *)
Theorem frame_buffer_last_write_wins s log :
  reachable s log →
  output_frame (app s) = latest log
  ∧ (∀ i g v, log !! i = Some (EvSnapshot g v) →
       (∀ k t b, k < i → log !! k ≠ Some (EvPublish t b)) → v = None)
  ∧ (∀ j i t f g v,
       log !! j = Some (EvPublish t f) → log !! i = Some (EvSnapshot g v) →
       j < i →
       (∀ k t' b', j < k → k < i → log !! k ≠ Some (EvPublish t' b')) →
       v = Some f)
  ∧ (∀ i i' g g' v v',
       log !! i = Some (EvSnapshot g v) → log !! i' = Some (EvSnapshot g' v') →
       i ≤ i' →
       (∀ k t b, i ≤ k → k < i' → log !! k ≠ Some (EvPublish t b)) →
       v' = v)
  ∧ (∀ g, sessions s !! g = Some GTest →
       ∃ s', step s (Session g) = Some (s', [EvSnapshot g (latest log)])).
Proof.
  intros Hr. destruct (relay_inv_reachable s log Hr) as [Hslot _ Hlog].
  split_and!.
  - done.
  - intros i g v Hi Hno. rewrite (Hlog i _ Hi : v = _). apply latest_none.
    intros k t b. rewrite lookup_take. case_decide; [by apply Hno|done].
  - intros j i t f g v Hj Hi Hji Hno. rewrite (Hlog i _ Hi : v = _).
    by eapply latest_since.
  - intros i i' g g' v v' Hi Hi' Hle Hno.
    rewrite (Hlog i _ Hi : v = _), (Hlog i' _ Hi' : v' = _).
    by apply latest_unchanged.
  - intros g Hg. unfold step. rewrite Hg. simpl. rewrite Hslot.
    destruct (latest log); eauto.
Qed.

Lemma frame_buffer_last_write_wins_witness :
  reachable polling_run.1 polling_run.2
  ∧ output_frame (app polling_run.1) = Some (demo_jpeg x01)
  ∧ polling_run.2 !! 0 = Some (EvSnapshot 0 None)
  ∧ polling_run.2 !! 9 = Some (EvSnapshot 0 (Some (demo_jpeg x01)))
  ∧ polling_run.2 !! 11 = Some (EvSnapshot 0 (Some (demo_jpeg x01))).
Proof.
  assert (reachable polling_run.1 polling_run.2) as Hr
    by (apply (exec_reachable0 polling_trace); vm_compute; reflexivity).
  split; [exact Hr|].
  destruct (frame_buffer_last_write_wins _ _ Hr) as (Hslot & _).
  split; [rewrite Hslot; vm_compute; reflexivity|].
  vm_compute. auto.
Defined.

(** ** Chunks *)




(** C9: the lock is held only between its acquisition and the end of the
    with block, lines 35-36 in the capture loop and lines 49-52 in a
    generator.  A thread that sleeps, backs off, yields a chunk or is
    suspended at the yield does not hold it. *)
Theorem no_suspension_under_lock s log :
  reachable s log →
  (∀ t, lock (app s) = Some (Producer t) →
     ∃ pc, threads s !! t = Some pc
           ∧ loop_critical pc = true ∧ loop_suspended pc = false)
  ∧ (∀ g, lock (app s) = Some (Consumer g) →
     ∃ pc, sessions s !! g = Some pc
           ∧ gen_critical pc = true ∧ gen_suspended pc = false)
  ∧ (∀ t pc, threads s !! t = Some pc → loop_suspended pc = true →
     lock (app s) ≠ Some (Producer t))
  ∧ (∀ g pc, sessions s !! g = Some pc → gen_suspended pc = true →
     lock (app s) ≠ Some (Consumer g)).
Proof.
  intros Hr. pose proof (holder_critical_reachable s log Hr) as Hh.
  unfold holder_critical in Hh. split_and!.
  - intros t Ht. rewrite Ht in Hh. destruct Hh as (pc & Hpc & Hc).
    exists pc. by destruct pc.
  - intros g Hg. rewrite Hg in Hh. destruct Hh as (pc & Hpc & Hc).
    exists pc. by destruct pc.
  - intros t pc Hpc Hsus Ht. rewrite Ht in Hh. destruct Hh as (pc' & Hpc' & Hc).
    rewrite Hpc in Hpc'. injection Hpc' as <-. by destruct pc.
  - intros g pc Hpc Hsus Hg. rewrite Hg in Hh. destruct Hh as (pc' & Hpc' & Hc).
    rewrite Hpc in Hpc'. injection Hpc' as <-. by destruct pc.
Qed.

Lemma no_suspension_under_lock_witness :
  reachable storing_run.1 storing_run.2
  ∧ lock (app storing_run.1) = Some (Producer 0)
  ∧ ∃ pc, threads storing_run.1 !! 0 = Some pc
          ∧ loop_critical pc = true ∧ loop_suspended pc = false.
Proof.
  assert (reachable storing_run.1 storing_run.2) as Hr
    by (apply (exec_reachable0 storing_trace); vm_compute; reflexivity).
  split; [exact Hr|]. split; [reflexivity|].
  apply (proj1 (no_suspension_under_lock _ _ Hr) 0). reflexivity.
Defined.

(** C10: once the latest-frame slot holds a frame it holds one for ever.
    Over any run of the system from a state whose slot is filled, the slot
    ends filled, with the frame it had or with a frame published during
    the run; and a run in which no capture loop moves, whatever requests
    are served in it (switches, failed starts), leaves the very same frame
    in the slot. *)
Theorem frame_slot_never_emptied s acts s' evs b :
  exec s acts = Some (s', evs) →
  output_frame (app s) = Some b →
  (∃ b', output_frame (app s') = Some b'
         ∧ (b' = b ∨ ∃ t, EvPublish t b' ∈ evs))
  ∧ (Forall (λ a, ∀ t, a ≠ Loop t) acts → output_frame (app s') = Some b).
Proof.
  revert s evs b. induction acts as [|a acts IH]; intros s evs b He Hb.
  - simpl in He. simplify_eq. eauto.
  - simpl in He. destruct (step s a) as [[s1 e1]|] eqn:Hs; [|done].
    destruct (exec s1 acts) as [[s2 e2]|] eqn:He2; [|done]. simplify_eq.
    destruct (slot_step _ _ _ _ Hs) as [Heq|(t & b1 & -> & _ & Hb1 & ->)].
    + rewrite Hb in Heq. destruct (IH _ _ _ He2 Heq) as [(b' & Hb' & Hor) Hctl].
      split.
      * exists b'. split; [done|]. destruct Hor as [->|[t Ht]]; [by left|].
        right. exists t. apply elem_of_app. by right.
      * intros Hall. apply Hctl. by eapply Forall_cons_1.
    + destruct (IH _ _ _ He2 Hb1) as [(b' & Hb' & Hor) _]. split.
      * exists b'. split; [done|]. right. destruct Hor as [->|[t' Ht']].
        -- exists t. apply elem_of_app. left. by apply list_elem_of_singleton.
        -- exists t'. apply elem_of_app. by right.
      * intros Hall. apply Forall_cons_1 in Hall as [Hc _]. by destruct (Hc t).
Qed.

Lemma frame_slot_never_emptied_witness :
  exec polling_run.1 restart_trace = Some (restart_run.1, restart_run.2)
  ∧ output_frame (app polling_run.1) = Some (demo_jpeg x01)
  ∧ (∃ b', output_frame (app restart_run.1) = Some b'
           ∧ (b' = demo_jpeg x01 ∨ ∃ t, EvPublish t b' ∈ restart_run.2))
  ∧ (Forall (λ a, ∀ t, a ≠ Loop t) restart_trace →
     output_frame (app restart_run.1) = Some (demo_jpeg x01)).
Proof.
  assert (exec polling_run.1 restart_trace = Some (restart_run.1, restart_run.2))
    as He by (vm_compute; reflexivity).
  split; [exact He|]. split; [reflexivity|].
  exact (frame_slot_never_emptied _ _ _ _ (demo_jpeg x01) He eq_refl).
Defined.

(** ** References are in range *)

Lemma nonempty_moved {A} (l : list A) i x : <[i := x]> l ≠ [] → l ≠ [].
Proof. by destruct l. Qed.

Lemma wf_step s a s' evs : step s a = Some (s', evs) → wf s → wf s'.
Proof.
  intros Hs [Ht Hc Hst Hh].
  step_inv Hs; unfold_updates; split; simpl;
    rewrite ?length_insert, ?length_app, ?length_alter; simpl;
    try done;
    try (intros t' Ht'; simplify_eq; try lia; by apply Ht);
    try (intros h' Hh'; simplify_eq; try lia; by apply Hc);
    try (intros Hne; apply nonempty_moved in Hne; by apply Hst);
    try (intros pc' Hpc'; apply Hh in Hpc'; by destruct pc');
    try (intros pc' Hpc'; simplify_eq; simpl; try done;
         match goal with
         | H : handler _ = Some _ |- _ => apply Hh in H; simpl in H; eauto
         end).
  all: try (intros Hne; try apply nonempty_moved in Hne;
            repeat match goal with
            | H : video_capture _ = _ |- _ => rewrite H in *
            end; by eauto).
  intros _. by apply (Hh (HSpawn url)).
Qed.

Lemma wf_reachable s log : reachable s log → wf s.
Proof.
  induction 1 as [|s log a s' evs _ IH Hs]; [by split|].
  by eapply wf_step.
Qed.

(** ** The capture loop, one thread at a time *)

Lemma exec_ticks s n :
  exec s (replicate n Tick) = Some (with_clock (clock s + n) s, []).
Proof.
  revert s. induction n as [|n IH]; intros s; simpl.
  - destruct s. unfold with_clock. simpl. by rewrite Nat.add_0_r.
  - rewrite IH. unfold with_clock. simpl. do 3 f_equal. lia.
Qed.

Lemma goto_lookup s t pc0 pc :
  threads s !! t = Some pc0 → threads (goto t pc s) !! t = Some pc.
Proof. intros Ht. simpl. apply list_lookup_insert_eq. by eapply lookup_lt_Some. Qed.



Lemma exec_step_then s a acts s1 e1 s2 e2 :
  step s a = Some (s1, e1) → exec s1 acts = Some (s2, e2) →
  exec s (a :: acts) = Some (s2, e1 ++ e2).
Proof. intros Hs He. simpl. by rewrite Hs, He. Qed.

Lemma exec_ticks_then s n acts s2 e2 :
  exec (with_clock (clock s + n) s) acts = Some (s2, e2) →
  exec s (replicate n Tick ++ acts) = Some (s2, e2).
Proof. intros He. by rewrite exec_app, exec_ticks, He. Qed.

Lemma step_loop s t pc :
  threads s !! t = Some pc → step s (Loop t) = loop_step s t pc.
Proof. intros Ht. unfold step. by rewrite Ht. Qed.




(** ** Cancellation latency *)

Lemma earliest_head_step s a s1 e1 t pc :
  step s a = Some (s1, e1) → threads s !! t = Some pc →
  ∃ pc1, threads s1 !! t = Some pc1
         ∧ clock s ≤ clock s1
         ∧ (pc1 = LExit → pc = LExit ∨ pc = LHead)
         ∧ (pc1 ≠ LExit → earliest_head (clock s) pc ≤ earliest_head (clock s1) pc1).
Proof.
  intros Hs Ht.
  step_inv Hs; unfold_updates;
    repeat match goal with
    | H : ?l !! ?i = Some _ |- context [<[?i := ?y]> ?l !! ?j] =>
        rewrite (lookup_moved l i j _ y H)
    | |- context [(?l ++ [?y]) !! ?j] => rewrite (lookup_spawned l j y)
    end;
    repeat case_decide; simplify_eq;
    try (exfalso; match goal with H : ?l !! length ?l = Some _ |- _ =>
           apply lookup_lt_Some in H; lia end);
    repeat match goal with
    | H : (_ <=? _) = true |- _ => apply Nat.leb_le in H
    end;
    eexists; (split; [done|]); unfold pacing, backoff;
    (split; [lia|]); (split; [by auto|]); intros _; simpl;
    try (destruct pc; simpl); unfold pacing; lia.
Qed.

Lemma exec_clock_mono s acts s' evs :
  exec s acts = Some (s', evs) → clock s ≤ clock s'.
Proof.
  revert s evs. induction acts as [|a acts IH]; intros s evs He; simpl in He.
  - by simplify_eq.
  - destruct (step s a) as [[s1 e1]|] eqn:Hs; [|done].
    destruct (exec s1 acts) as [[s2 e2]|] eqn:He2; [|done]. simplify_eq.
    apply IH in He2. etrans; [|done].
    step_inv Hs; unfold_updates; lia.
Qed.

(** A loop cannot exit before it can test the flag. *)
Lemma exit_not_before s acts s' evs t pc :
  exec s acts = Some (s', evs) →
  threads s !! t = Some pc → pc ≠ LExit → threads s' !! t = Some LExit →
  earliest_head (clock s) pc ≤ clock s'.
Proof.
  revert s evs pc. induction acts as [|a acts IH]; intros s evs pc He Ht Hne Ht';
    simpl in He.
  - simplify_eq.
  - destruct (step s a) as [[s1 e1]|] eqn:Hs; [|done].
    destruct (exec s1 acts) as [[s2 e2]|] eqn:He2; [|done]. simplify_eq.
    destruct (earliest_head_step _ _ _ _ _ _ Hs Ht) as (pc1 & Ht1 & Hclk & Hexit & Hmono).
    assert (pc1 = LExit ∨ pc1 ≠ LExit) as [->|Hne1] by (destruct pc1; auto).
    + destruct Hexit as [->| ->]; [done..|]. simpl.
      apply exec_clock_mono in He2. lia.
    + specialize (IH _ _ _ He2 Ht1 Hne1 Ht'). specialize (Hmono Hne1). lia.
Qed.

Lemma exit_after_backoff s t w :
  threads s !! t = Some (LBackoff w) → clock s ≤ w →
  shutdown_flag (app s) = true →
  exec s (exit_schedule t (w - clock s))
  = Some (goto t LExit (with_clock (w + pacing) s), [EvExit t]).
Proof.
  intros Ht Hle Hflag. unfold exit_schedule.
  assert (t < length (threads s)) as Hlt by (by eapply lookup_lt_Some).
  apply exec_ticks_then.
  replace (clock s + (w - clock s)) with w by lia.
  eapply (exec_step_then _ _ _ _ [] _ [EvExit t]).
  { erewrite step_loop by (simpl; exact Ht). simpl.
    by rewrite (proj2 (Nat.leb_le _ _)) by lia. }
  apply exec_ticks_then.
  eapply (exec_step_then _ _ _ _ [] _ [EvExit t]).
  { erewrite step_loop by (simpl; apply list_lookup_insert_eq; by rewrite ?length_insert).
    simpl. by rewrite (proj2 (Nat.leb_le _ _)) by lia. }
  eapply (exec_step_then _ _ _ _ [EvExit t] _ []).
  { erewrite step_loop by (simpl; apply list_lookup_insert_eq; by rewrite ?length_insert).
    simpl. by rewrite Hflag. }
  simpl. unfold goto, with_threads, with_clock. simpl.
  by rewrite !list_insert_insert_eq.
Qed.

Lemma cancelled_reachable : reachable cancelled_run.1 cancelled_run.2.
Proof. apply (exec_reachable0 cancelled_trace). vm_compute. reflexivity. Qed.

(** C3, refuted: even with 58 ticks allowed for the frame read, the loop
    cancelled at tick 0 in a backoff that ends at tick 60 cannot exit by
    tick 59; it exits at tick 61 at the earliest. *)
Lemma backoff_exit_not_prompt : ¬ prompt_exit 58.
Proof.
  intros Hclaim.
  destruct (Hclaim cancelled_run.1 cancelled_run.2 0 60 cancelled_reachable
              eq_refl ltac:(simpl; lia) eq_refl)
    as (acts & s' & evs & He & Hexit & Hle).
  pose proof (exit_not_before _ _ _ _ 0 (LBackoff 60) He eq_refl
                ltac:(done) Hexit) as Hlb.
  simpl in Hlb, Hle. unfold pacing in *. lia.
Qed.

(** C3, as the code has it: a loop in its backoff does not exit before the
    backoff has run out and the pacing sleep after it has passed, whenever
    the flag is set; with the flag set and no delay it exits exactly then,
    one pacing interval after the end of the backoff. *)
Theorem backoff_delays_exit s t w :
  threads s !! t = Some (LBackoff w) → clock s ≤ w →
  (∀ acts s' evs,
     exec s acts = Some (s', evs) → threads s' !! t = Some LExit →
     w + pacing ≤ clock s')
  ∧ (shutdown_flag (app s) = true →
     exec s (exit_schedule t (w - clock s))
     = Some (goto t LExit (with_clock (w + pacing) s), [EvExit t])).
Proof.
  intros Ht Hle. split.
  - intros acts s' evs He Hexit.
    pose proof (exit_not_before _ _ _ _ t _ He Ht ltac:(done) Hexit) as Hlb.
    simpl in Hlb. lia.
  - intros Hflag. by apply exit_after_backoff.
Qed.

Lemma backoff_delays_exit_witness :
  threads cancelled_run.1 !! 0 = Some (LBackoff 60)
  ∧ clock cancelled_run.1 ≤ 60
  ∧ (∀ acts s' evs,
       exec cancelled_run.1 acts = Some (s', evs) →
       threads s' !! 0 = Some LExit → 60 + pacing ≤ clock s')
  ∧ (shutdown_flag (app cancelled_run.1) = true →
     exec cancelled_run.1 (exit_schedule 0 (60 - clock cancelled_run.1))
     = Some (goto 0 LExit (with_clock (60 + pacing) cancelled_run.1), [EvExit 0])).
Proof.
  split; [reflexivity|]. split; [simpl; lia|].
  apply (backoff_delays_exit cancelled_run.1 0 60); [reflexivity|simpl; lia].
Defined.

(** ** How many capture loops run *)





(** Both loops then publish into the slot, the old one from the new source. *)
Example both_loops_publish :
  ∃ s log,
    exec overlap_run.1
      ([Loop 0; Read 0 (Some demo_frame); Encode 0 (Some (demo_jpeg x01));
        Loop 0; Loop 0; Loop 0]
       ++ [Loop 1; Loop 1; Read 1 (Some demo_frame); Encode 1 (Some (demo_jpeg x02));
           Loop 1; Loop 1; Loop 1])
    = Some (s, log)
    ∧ log = [EvPublish 0 (demo_jpeg x01); EvPublish 1 (demo_jpeg x02)]
    ∧ video_capture (app s) = Some 1.
Proof. eexists _, _. split; [vm_compute; reflexivity|]. by split. Qed.



(** ** Releasing capture objects *)

(** What the other threads leave alone. *)
Lemma other_step_frame s a s' evs :
  step s a = Some (s', evs) → is_control a = false →
  handler s' = handler s ∧ captures s' = captures s ∧ calls s' = calls s
  ∧ capture_thread (app s') = capture_thread (app s)
  ∧ video_capture (app s') = video_capture (app s)
  ∧ shutdown_flag (app s') = shutdown_flag (app s)
  ∧ (∀ t pc, threads s !! t = Some pc →
       ∃ pc', threads s' !! t = Some pc'
              ∧ (shutdown_flag (app s) = false → running pc = true →
                 running pc' = true)).
Proof.
  intros Hs Hctl.
  step_inv Hs; unfold_updates; try done; split_and!; try done;
    intros t' pc' Ht';
    repeat match goal with
    | H : ?l !! ?i = Some _ |- context [<[?i := ?y]> ?l !! ?j] =>
        rewrite (lookup_moved l i j _ y H)
    end;
    repeat case_decide; simplify_eq; eauto;
    eexists; (split; [done|]); intros; simpl; congruence.
Qed.

Lemma handle_inv_other s a s' evs :
  step s a = Some (s', evs) → is_control a = false →
  handle_inv s → handle_inv s'.
Proof.
  intros Hs Hctl [Hold Hcur Hflag].
  destruct (other_step_frame _ _ _ _ Hs Hctl)
    as (Hh & Hc & _ & Hct & Hvc & Hfl & Hthr).
  split; unfold current_ok in *; rewrite ?Hh, ?Hc, ?Hct, ?Hvc, ?Hfl; try done.
  intros h vc Hhv Hvcv. specialize (Hcur h vc Hhv Hvcv).
  destruct (phase_of (handler s)) eqn:Hph; try done.
  destruct Hcur as [Hrel Hrun]. split; [done|]. intros Hop.
  destruct (Hrun Hop) as (t & pc & Ht & Hpc & Hr).
  destruct (Hthr t pc Hpc) as (pc' & Hpc' & Hkeep).
  exists t, pc'. split_and!; [done..|]. apply Hkeep; [|done].
  apply Hflag. by destruct (handler s) as [[]|].
Qed.

Lemma handle_inv_control s a s' evs :
  step s a = Some (s', evs) → is_control a = true →
  handle_inv s → handle_inv s'.
Proof.
  intros Hs Hctl [Hold Hcur Hflag].
  unfold current_ok, released_if_opened in *.
  destruct a; try done; simpl in Hs.
  - (* a request is taken *)
    unfold request_step in Hs. destruct (handler s) eqn:Hh; simplify_eq.
    handle_fields Hold Hcur.
  - (* the handler moves *)
    destruct (handler s) as [pc|] eqn:Hh; simplify_eq/=.
    destruct pc; simpl in Hs; unfold hev in Hs.
    + (* line 71 *)
      simplify_eq. handle_fields Hold Hcur.
      * intros h vc Hhv Hvc. destruct (Hcur h vc Hhv Hvc) as [Hrel Hrun].
        destruct (capture_thread (app s)) as [t|] eqn:Hct.
        -- destruct (is_alive s t) eqn:Hal; simpl; [done|].
           split; [lia|]. intros Hop.
           destruct (Hrun Hop) as (t' & pc' & ? & Hpc' & Hr'). simplify_eq.
           unfold is_alive in Hal. rewrite Hpc' in Hal. congruence.
        -- simpl. split; [lia|]. intros Hop.
           by destruct (Hrun Hop) as (t' & pc' & ? & _).
      * by repeat case_match.
    + (* line 72 *)
      destruct (capture_thread (app s)); simplify_eq/=.
      handle_fields Hold Hcur.
    + (* line 73 *)
      destruct (capture_thread (app s)); simplify_eq/=.
      repeat case_match; simplify_eq;
        handle_fields Hold Hcur.
    + (* lines 74-75 *)
      destruct (video_capture (app s)) as [h|] eqn:Hv; simplify_eq/=.
      * handle_fields Hold Hcur.
        -- intros h' vc' Hvc' Hne. rewrite list_lookup_alter_ne in Hvc' by congruence.
           apply (Hold h' vc'); [done|congruence].
        -- intros h' vc' Heq Hvc'. assert (h' = h) as -> by congruence.
           rewrite list_lookup_alter_eq in Hvc'.
           destruct (captures s !! h) as [vc|] eqn:Hvc; simplify_eq/=.
           rewrite (Hcur h vc eq_refl Hvc). split; [lia|done].
      * handle_fields Hold Hcur.
    + (* line 77 *)
      simplify_eq. handle_fields Hold Hcur.
    + done.
    + (* line 80 *)
      destruct (video_capture (app s)) as [h|] eqn:Hv; simplify_eq/=.
      destruct (captures s !! h) as [vc|] eqn:Hvc; simplify_eq/=.
      destruct (isOpened vc) eqn:Hop; simplify_eq;
        handle_fields Hold Hcur.
      intros h' vc' Heq Hvc'. assert (h' = h) as -> by congruence.
      assert (vc' = vc) as -> by congruence.
      split; [by apply (Hcur h vc)|].
      intros Hopened. unfold isOpened in Hop.
      rewrite Hopened, (Hcur h vc eq_refl Hvc) in Hop. done.
    + (* lines 84-88 *)
      simplify_eq. handle_fields Hold Hcur.
      intros h vc Hhv Hvc. split; [by apply (Hcur h vc)|]. intros _.
      exists (length (threads s)), LHead. split_and!; [done| |done].
      by rewrite lookup_app_r, Nat.sub_diag by lia.
  - (* line 78 *)
    destruct (handler s) as [pc|] eqn:Hh; simplify_eq/=.
    destruct pc; simpl in Hs; unfold hev in Hs; simplify_eq.
    handle_fields Hold Hcur.
    + intros h vc Hvc Hne. rewrite lookup_spawned in Hvc.
      case_decide; [congruence|].
      destruct (decide (video_capture (app s) = Some h)) as [Hv|Hv].
      * apply (Hcur h vc); [congruence|done].
      * apply (Hold h vc); [done|congruence].
    + intros h vc Heq Hvc. assert (h = length (captures s)) as -> by congruence.
      rewrite lookup_spawned in Hvc. case_decide; [|done]. by simplify_eq.
Qed.

Lemma handle_inv_step s a s' evs :
  step s a = Some (s', evs) → handle_inv s → handle_inv s'.
Proof.
  intros Hs Hinv. destruct (is_control a) eqn:Hctl.
  - by eapply handle_inv_control.
  - by eapply handle_inv_other.
Qed.

Lemma handle_inv_reachable s log : reachable s log → handle_inv s.
Proof.
  induction 1 as [|s log a s' evs _ IH Hs].
  - split; [by intros [|h] vc|by intros h vc|done].
  - by eapply handle_inv_step.
Qed.




(** ** One call of [start_stream], as the log shows it *)

Lemma call_log_app c log evs :
  call_log c (log ++ evs) = call_log c log ++ call_log c evs.
Proof. apply omap_app. Qed.

Lemma other_step_quiet s a s' evs c :
  step s a = Some (s', evs) → is_control a = false → call_log c evs = [].
Proof. intros Hs Hctl. step_inv Hs; done. Qed.

Lemma control_step_tagged s a s' evs c :
  step s a = Some (s', evs) → is_control a = true → c ≠ calls s' →
  call_log c evs = [].
Proof.
  intros Hs Hctl Hc.
  step_inv Hs; unfold_updates; try done; unfold call_log; simpl;
    repeat case_decide; congruence.
Qed.

Lemma call_inv_other s log a s' evs :
  step s a = Some (s', evs) → is_control a = false →
  call_inv s log → call_inv s' (log ++ evs).
Proof.
  intros Hs Hctl [Hlater Hzero Hearlier Hthis].
  destruct (other_step_frame _ _ _ _ Hs Hctl) as (Hh & _ & Hc & Hct & Hvc & _).
  split; rewrite ?Hh, ?Hc; intros;
    rewrite call_log_app, (other_step_quiet _ _ _ _ _ Hs Hctl), (right_id_L [] (++));
    auto.
  destruct (handler s) as [[]|]; simpl in *; by rewrite ?Hct, ?Hvc.
Qed.

Lemma call_log_cons_tagged c e evs :
  call_log c (EvHandler c e :: evs) = e :: call_log c evs.
Proof. unfold call_log. simpl. by rewrite decide_True. Qed.

Lemma call_log_tagged c (l : list hevent) :
  call_log c (EvHandler c <$> l) = l.
Proof.
  induction l as [|e l IH]; [done|].
  rewrite fmap_cons, call_log_cons_tagged. by rewrite IH.
Qed.

(** The handler's own steps tag what they show with the number of the call. *)
Lemma control_step_events s a s' evs :
  step s a = Some (s', evs) → is_control a = true →
  ∃ l, evs = EvHandler (calls s') <$> l.
Proof.
  intros Hs Hctl. step_inv Hs; unfold_updates; try done;
    first [ by eexists [_; _] | by eexists [_] | by eexists [] ].
Qed.

Lemma call_inv_control s log a s' evs :
  step s a = Some (s', evs) → is_control a = true → wf s →
  call_inv s log → call_inv s' (log ++ evs).
Proof.
  intros Hs Hctl Hwf [Hlater Hzero Hearlier Hthis].
  assert (calls s ≤ calls s' ∧ 0 < calls s'
          ∧ (calls s < calls s' → handler s = None)) as (Hle & Hpos & Hnew).
  { step_inv Hs; unfold_updates; try done;
      try match goal with H : handler _ = _ |- _ => rewrite H in Hthis end;
      simpl in *; split_and!; try lia; try done; by destruct Hthis. }
  split.
  - intros c Hc. rewrite call_log_app, Hlater by lia.
    by rewrite (control_step_tagged _ _ _ _ c Hs Hctl) by lia.
  - rewrite call_log_app, Hzero.
    by rewrite (control_step_tagged _ _ _ _ 0 Hs Hctl) by lia.
  - intros c Hc0 Hc. rewrite call_log_app.
    rewrite (control_step_tagged _ _ _ _ c Hs Hctl), (right_id_L [] (++)) by lia.
    destruct (decide (c < calls s)) as [Hlt|Hge]; [by apply Hearlier|].
    assert (c = calls s) as -> by (step_inv Hs; unfold_updates; simpl in *; lia).
    rewrite Hnew in Hthis by lia. destruct Hthis; [lia|done].
  - rewrite call_log_app.
    assert (∀ url, handler s = Some (HRelease url) →
              is_Some (video_capture (app s))) as Hrel.
    { intros url Hh. destruct Hwf as [Hwt _ Hst Hwh].
      destruct (Hwh _ Hh) as [t Ht]. apply Hst. intros Hnil.
      apply Hwt in Ht. rewrite Hnil in Ht. simpl in Ht. lia. }
    step_inv Hs; unfold_updates; try done; simpl in *;
      repeat match goal with H : handler _ = _ |- _ => rewrite H in * end;
      rewrite ?call_log_cons_tagged; change (call_log _ []) with (@nil hevent);
      rewrite ?(right_id_L [] (++));
      try (destruct Hthis as [Hc Hshown]; split; [lia|]);
      unfold stopped in *; simpl in *.
    all: try (by rewrite Hshown; eauto 10).
    all: try (by destruct Hshown as (? & ->); eauto 10).
    all: try (by destruct Hshown as (? & ? & ->); eauto 10).
    all: try (by destruct Hshown as (t & ? & ->); simplify_eq; eauto 10).
    all: try (by exfalso; destruct (Hrel _ eq_refl) as [? ?]; congruence).
    all: try (by eexists; split; [exact Hshown|]).
    all: try (destruct Hshown as (l0 & h & Hst & ? & ->); simplify_eq;
              rewrite <-(assoc_L (++)); simpl).
    all: try (destruct Hshown as (l0 & h & Hst & ->);
              rewrite <-(assoc_L (++)); simpl).
    all: try (destruct Hshown as (l0 & Hst & ->);
              rewrite <-(assoc_L (++)); simpl).
    all: try (by eexists _, _; eauto).
    all: try (by right; eexists _, _, _; eauto 10).
    all: try (by split; [lia|rewrite Hlater by lia]).
    + destruct Hthis as (_ & l0 & h & Hst & ? & ->). simplify_eq.
      rewrite <-(assoc_L (++)). simpl. right. exists url, l0, h.
      split; [exact Hst|]. by left.
    + destruct Hthis as (_ & l0 & h & Hst & ->).
      rewrite <-(assoc_L (++)). simpl. right. exists url, l0, h.
      split; [exact Hst|]. right. by eexists.
Qed.

Lemma call_inv_reachable s log : reachable s log → call_inv s log.
Proof.
  induction 1 as [|s log a s' evs Hr IH Hs].
  - split; simpl; [done|done|intros; lia|by left].
  - destruct (is_control a) eqn:Hctl.
    + eapply call_inv_control; eauto using wf_reachable.
    + by eapply call_inv_other.
Qed.



Lemma call_shape_reachable s log c : reachable s log → call_shape (call_log c log).
Proof.
  intros Hr. destruct (call_inv_reachable s log Hr) as [Hlater Hzero Hearlier Hthis].
  destruct (decide (c = 0)) as [->|Hc0]; [by left|].
  destruct (decide (calls s < c)) as [Hgt|Hle]; [left; by apply Hlater|].
  destruct (decide (c < calls s)) as [Hlt|Hge]; [right; right; apply Hearlier; lia|].
  assert (c = calls s) as -> by lia.
  destruct (handler s) as [pc|].
  - right. left. destruct Hthis as [_ Hshown]. eauto.
  - right. right. destruct Hthis; [lia|done].
Qed.











(** ** A start that fails *)




(** * Part IV: proofs of the further properties *)

(** ** Mutual exclusion *)

Lemma mutex_inv_step s a s' evs :
  step s a = Some (s', evs) → mutex_inv s → mutex_inv s'.
Proof.
  intros Hs [Hp Hc].
  step_inv Hs; unfold_updates;
    (split; [intros t' pc' Ht' Hcr'|intros g' pc' Hg' Hcr']);
    simpl in *;
    repeat match goal with
    | H : ?l !! ?i = Some _, H' : <[?i := ?y]> ?l !! ?j = Some _ |- _ =>
        rewrite (lookup_moved l i j _ y H) in H'
    | H' : (?l ++ [?y]) !! ?j = Some _ |- _ =>
        rewrite (lookup_spawned l j y) in H'
    end;
    repeat case_decide; simplify_eq/=; eauto;
    try (by (exfalso;
             first [ pose proof (Hp _ _ Ht' Hcr') as Hl
                   | pose proof (Hc _ _ Hg' Hcr') as Hl ];
             first [ congruence
                   | match goal with
                     | H : threads _ !! _ = Some ?pc |- _ =>
                         pose proof (Hp _ _ H eq_refl); congruence
                     | H : sessions _ !! _ = Some ?pc |- _ =>
                         pose proof (Hc _ _ H eq_refl); congruence
                     end ])).
Qed.

Lemma mutex_inv_reachable s log : reachable s log → mutex_inv s.
Proof.
  induction 1 as [|s log a s' evs _ IH Hs].
  - split; [by intros [|t] pc|by intros [|g] pc].
  - by eapply mutex_inv_step.
Qed.

(** X1: mutual exclusion.  At any time at most one thread, capture loop or
    generator, is inside the with block of the lock (lines 35-36 and 49-52):
    a store into the frame slot and a read of it never overlap. *)
Theorem lock_mutual_exclusion s log :
  reachable s log →
  (∀ t1 t2 pc1 pc2,
     threads s !! t1 = Some pc1 → threads s !! t2 = Some pc2 →
     loop_critical pc1 = true → loop_critical pc2 = true → t1 = t2)
  ∧ (∀ g1 g2 pc1 pc2,
       sessions s !! g1 = Some pc1 → sessions s !! g2 = Some pc2 →
       gen_critical pc1 = true → gen_critical pc2 = true → g1 = g2)
  ∧ (∀ t g pc1 pc2,
       threads s !! t = Some pc1 → sessions s !! g = Some pc2 →
       loop_critical pc1 = true → gen_critical pc2 = false).
Proof.
  intros Hr. destruct (mutex_inv_reachable s log Hr) as [Hp Hc]. split_and!.
  - intros t1 t2 pc1 pc2 H1 H2 Hc1 Hc2.
    pose proof (Hp _ _ H1 Hc1). pose proof (Hp _ _ H2 Hc2). congruence.
  - intros g1 g2 pc1 pc2 H1 H2 Hc1 Hc2.
    pose proof (Hc _ _ H1 Hc1). pose proof (Hc _ _ H2 Hc2). congruence.
  - intros t g pc1 pc2 H1 H2 Hc1. destruct (gen_critical pc2) eqn:Hc2; [|done].
    pose proof (Hp _ _ H1 Hc1). pose proof (Hc _ _ H2 Hc2). congruence.
Qed.

Lemma lock_mutual_exclusion_witness :
  reachable storing_run.1 storing_run.2
  ∧ threads storing_run.1 !! 0 = Some (LStore (demo_jpeg x01))
  ∧ (∀ t g pc1 pc2,
       threads storing_run.1 !! t = Some pc1 →
       sessions storing_run.1 !! g = Some pc2 →
       loop_critical pc1 = true → gen_critical pc2 = false).
Proof.
  assert (reachable storing_run.1 storing_run.2) as Hr
    by (apply (exec_reachable0 storing_trace); vm_compute; reflexivity).
  split; [exact Hr|]. split; [reflexivity|].
  exact (proj2 (proj2 (lock_mutual_exclusion _ _ Hr))).
Defined.

(** ** The lock is given back *)

Lemma step_session s g pc :
  sessions s !! g = Some pc → step s (Session g) = session_step s g pc.
Proof. intros Hg. unfold step. by rewrite Hg. Qed.

(** X2: the holder of the lock is never blocked and gives the lock back
    within two steps of its own, whatever the other threads do or do not
    do: no thread can keep the others out of the frame slot. *)
Theorem lock_holder_releases s log :
  reachable s log →
  (∀ t, lock (app s) = Some (Producer t) →
     ∃ n s' evs, n ≤ 2 ∧ exec s (replicate n (Loop t)) = Some (s', evs)
                 ∧ lock (app s') = None)
  ∧ (∀ g, lock (app s) = Some (Consumer g) →
     ∃ n s' evs, n ≤ 2 ∧ exec s (replicate n (Session g)) = Some (s', evs)
                 ∧ lock (app s') = None).
Proof.
  intros Hr. pose proof (holder_critical_reachable s log Hr) as Hh.
  unfold holder_critical in Hh. split.
  - intros t Ht. rewrite Ht in Hh. destruct Hh as (pc & Hpc & Hcr).
    assert (t < length (threads s)) as Hlt by (by eapply lookup_lt_Some).
    destruct pc; try done.
    + exists 2. eexists _, _. split; [lia|]. split.
      * change (replicate 2 (Loop t)) with [Loop t; Loop t].
        eapply exec_step_then; [by rewrite (step_loop _ _ _ Hpc)|].
        eapply exec_step_then; [|reflexivity].
        by erewrite step_loop by (simpl; by apply list_lookup_insert_eq).
      * reflexivity.
    + exists 1. eexists _, _. split; [lia|]. split.
      * change (replicate 1 (Loop t)) with [Loop t].
        eapply exec_step_then; [by rewrite (step_loop _ _ _ Hpc)|reflexivity].
      * reflexivity.
  - intros g Hg. rewrite Hg in Hh. destruct Hh as (pc & Hpc & Hcr).
    assert (g < length (sessions s)) as Hlt by (by eapply lookup_lt_Some).
    destruct pc; try done.
    + destruct (output_frame (app s)) as [b|] eqn:Hb.
      * exists 2. eexists _, _. split; [lia|]. split.
        -- change (replicate 2 (Session g)) with [Session g; Session g].
           eapply exec_step_then;
             [rewrite (step_session _ _ _ Hpc); simpl; by rewrite Hb|].
           eapply exec_step_then; [|reflexivity].
           by erewrite step_session by (simpl; by apply list_lookup_insert_eq).
        -- reflexivity.
      * exists 1. eexists _, _. split; [lia|]. split.
        -- change (replicate 1 (Session g)) with [Session g].
           eapply exec_step_then;
             [rewrite (step_session _ _ _ Hpc); simpl; by rewrite Hb|reflexivity].
        -- reflexivity.
    + exists 1. eexists _, _. split; [lia|]. split.
      * change (replicate 1 (Session g)) with [Session g].
        eapply exec_step_then; [by rewrite (step_session _ _ _ Hpc)|reflexivity].
      * reflexivity.
Qed.

Lemma lock_holder_releases_witness :
  reachable storing_run.1 storing_run.2
  ∧ lock (app storing_run.1) = Some (Producer 0)
  ∧ ∃ n s' evs, n ≤ 2 ∧ exec storing_run.1 (replicate n (Loop 0)) = Some (s', evs)
                ∧ lock (app s') = None.
Proof.
  assert (reachable storing_run.1 storing_run.2) as Hr
    by (apply (exec_reachable0 storing_trace); vm_compute; reflexivity).
  split; [exact Hr|]. split; [reflexivity|].
  exact (proj1 (lock_holder_releases _ _ Hr) 0 eq_refl).
Defined.

(** ** Between two calls *)

Lemma idle_step s a s' evs :
  step s a = Some (s', evs) → handler s = None →
  match a with Request _ => False | _ => True end →
  is_control a = false.
Proof. intros Hs Hh Ha. destruct a; try done; simpl in Hs; by rewrite Hh in Hs. Qed.

Lemma idle_exec s acts s' evs :
  exec s acts = Some (s', evs) →
  handler s = None → shutdown_flag (app s) = false → no_request acts = true →
  handler s' = None ∧ shutdown_flag (app s') = false
  ∧ captures s' = captures s ∧ calls s' = calls s
  ∧ video_capture (app s') = video_capture (app s)
  ∧ capture_thread (app s') = capture_thread (app s)
  ∧ (∀ t pc, threads s !! t = Some pc → running pc = true →
       ∃ pc', threads s' !! t = Some pc' ∧ running pc' = true).
Proof.
  revert s evs. induction acts as [|a acts IH]; intros s evs He Hh Hfl Hno.
  - simpl in He. simplify_eq. split_and!; eauto.
  - simpl in He, Hno. apply andb_prop in Hno as [Ha Hno].
    destruct (step s a) as [[s1 e1]|] eqn:Hs; [|done].
    destruct (exec s1 acts) as [[s2 e2]|] eqn:He2; [|done]. simplify_eq.
    assert (is_control a = false) as Hctl
      by (eapply idle_step; [done..|by destruct a]).
    destruct (other_step_frame _ _ _ _ Hs Hctl)
      as (Hh1 & Hc1 & Hn1 & Hct1 & Hvc1 & Hfl1 & Hthr).
    destruct (IH s1 e2 He2) as (? & ? & ? & ? & ? & ? & Hthr2);
      [congruence..|done|].
    split_and!; try congruence.
    intros t pc Ht Hrun. destruct (Hthr t pc Ht) as (pc1 & Ht1 & Hkeep).
    apply (Hthr2 t pc1 Ht1). by apply Hkeep.
Qed.

(** X3: between two calls of [start_stream] nothing stops a capture loop.
    From a state with no handler running, over any run in which no request
    arrives, every loop that was running is still running, the shutdown
    flag stays clear, and the thread and the capture in [app_state] are the
    same. *)
Theorem stream_runs_until_next_call s log acts s' evs :
  reachable s log → handler s = None → no_request acts = true →
  exec s acts = Some (s', evs) →
  shutdown_flag (app s) = false ∧ shutdown_flag (app s') = false
  ∧ handler s' = None
  ∧ video_capture (app s') = video_capture (app s)
  ∧ capture_thread (app s') = capture_thread (app s)
  ∧ (∀ t pc, threads s !! t = Some pc → running pc = true →
       ∃ pc', threads s' !! t = Some pc' ∧ running pc' = true).
Proof.
  intros Hr Hh Hno He.
  assert (shutdown_flag (app s) = false) as Hfl.
  { destruct (handle_inv_reachable s log Hr) as [_ _ Hflag]. apply Hflag.
    by rewrite Hh. }
  destruct (idle_exec _ _ _ _ He Hh Hfl Hno) as (? & ? & ? & ? & ? & ? & ?).
  by split_and!.
Qed.


Lemma stream_runs_until_next_call_witness :
  reachable polling_run.1 polling_run.2
  ∧ handler polling_run.1 = None
  ∧ no_request steady_trace = true
  ∧ exec polling_run.1 steady_trace = Some (steady_run.1, steady_run.2)
  ∧ shutdown_flag (app steady_run.1) = false
  ∧ ∃ pc', threads steady_run.1 !! 0 = Some pc' ∧ running pc' = true.
Proof.
  assert (reachable polling_run.1 polling_run.2) as Hr
    by (apply (exec_reachable0 polling_trace); vm_compute; reflexivity).
  assert (exec polling_run.1 steady_trace = Some (steady_run.1, steady_run.2))
    as He by (vm_compute; reflexivity).
  split; [exact Hr|]. split; [reflexivity|]. split; [reflexivity|].
  split; [exact He|].
  destruct (stream_runs_until_next_call _ _ steady_trace _ _ Hr eq_refl eq_refl He)
    as (_ & Hfl & _ & _ & _ & Hrun).
  split; [exact Hfl|]. exact (Hrun 0 LHead eq_refl eq_refl).
Defined.


(** ** What [app_state] refers to *)






(** ** The answer of a call *)

Lemma call_shape_return l i r :
  call_shape l → l !! i = Some (HvReturn r) →
  ∃ url, l !! 0 = Some (HvBegin url) ∧ S i = length l
         ∧ ((r = error_response ∧ ∀ j t, l !! j ≠ Some (HvSpawn t))
            ∨ (r = success_response url
               ∧ ∃ t, l !! (i - 1) = Some (HvSpawn t))).
Proof.
  intros H Hi. shape_cases H; index_cases;
    (eexists; split_and!; [done..|];
     first [ by left; split; [done|]; intros j t' Hj; index_cases
           | by right; split; [done|]; eexists ]).
Qed.

(** X6: what [start_stream] answers.  A call answers at most once, and its
    answer is the last thing it does.  The answer is the 400 error, and then
    the call has spawned no loop, or it is 200 with the message
    [Stream started from <stream_url>] for the stream_url the call was made
    with, and then the call has spawned a loop just before. *)
Theorem start_stream_answer s log c i r :
  reachable s log → call_log c log !! i = Some (HvReturn r) →
  S i = length (call_log c log)
  ∧ ∃ url, call_log c log !! 0 = Some (HvBegin url)
    ∧ ((r = mkResponse 400 "error" "Could not open video source."
        ∧ ∀ j t, call_log c log !! j ≠ Some (HvSpawn t))
       ∨ (r = mkResponse 200 "success" ("Stream started from " ++ show_source url)
          ∧ ∃ t, call_log c log !! (i - 1) = Some (HvSpawn t))).
Proof.
  intros Hr Hi.
  destruct (call_shape_return _ _ _ (call_shape_reachable s log c Hr) Hi)
    as (url & H0 & Hlen & Hcases).
  split; [done|]. by exists url.
Qed.

Lemma start_stream_answer_witness :
  reachable polling_run.1 polling_run.2
  ∧ call_log 1 polling_run.2 !! 6 = Some (HvReturn (success_response (Device 0)))
  ∧ 7 = length (call_log 1 polling_run.2)
  ∧ message (success_response (Device 0)) = "Stream started from 0"%string
  ∧ ∃ url, call_log 1 polling_run.2 !! 0 = Some (HvBegin url)
    ∧ ((success_response (Device 0)
        = mkResponse 400 "error" "Could not open video source."
        ∧ ∀ j t, call_log 1 polling_run.2 !! j ≠ Some (HvSpawn t))
       ∨ (success_response (Device 0)
          = mkResponse 200 "success" ("Stream started from " ++ show_source url)
          ∧ ∃ t, call_log 1 polling_run.2 !! (6 - 1) = Some (HvSpawn t))).
Proof.
  assert (reachable polling_run.1 polling_run.2) as Hr
    by (apply (exec_reachable0 polling_trace); vm_compute; reflexivity).
  split; [exact Hr|].
  assert (call_log 1 polling_run.2 !! 6
          = Some (HvReturn (success_response (Device 0)))) as Hi
    by (vm_compute; reflexivity).
  split; [exact Hi|]. split; [reflexivity|]. split; [reflexivity|].
  exact (proj2 (start_stream_answer _ _ 1 6 _ Hr Hi)).
Defined.

(** ** A call always returns *)

















(** ** Pacing *)



Lemma earliest_publish_step s a s1 e1 t pc :
  step s a = Some (s1, e1) → threads s !! t = Some pc →
  ∃ pc1, threads s1 !! t = Some pc1
         ∧ clock s ≤ clock s1
         ∧ earliest_publish (clock s) pc ≤ earliest_publish (clock s1) pc1
         ∧ (∀ b, EvPublish t b ∈ e1 → earliest_publish (clock s) pc = clock s).
Proof.
  intros Hs Ht.
  step_inv Hs; unfold_updates;
    repeat match goal with
    | H : ?l !! ?i = Some _ |- context [<[?i := ?y]> ?l !! ?j] =>
        rewrite (lookup_moved l i j _ y H)
    | |- context [(?l ++ [?y]) !! ?j] => rewrite (lookup_spawned l j y)
    end;
    repeat case_decide; simplify_eq;
    try (exfalso; match goal with H : ?l !! length ?l = Some _ |- _ =>
           apply lookup_lt_Some in H; lia end);
    repeat match goal with
    | H : (_ <=? _) = true |- _ => apply Nat.leb_le in H
    end;
    eexists; (split; [done|]); (split; [lia|]);
    (split;
     [ try (destruct pc; simpl); simpl; unfold pacing; lia
     | intros b' Hin;
       repeat (apply elem_of_cons in Hin as [Hin|Hin]; simplify_eq);
       try (by apply elem_of_nil in Hin); done ]).
Qed.

Lemma publish_not_before s acts s' evs t pc b :
  exec s acts = Some (s', evs) → threads s !! t = Some pc →
  EvPublish t b ∈ evs → earliest_publish (clock s) pc ≤ clock s'.
Proof.
  revert s evs pc. induction acts as [|a acts IH]; intros s evs pc He Ht Hin;
    simpl in He.
  - simplify_eq. by apply elem_of_nil in Hin.
  - destruct (step s a) as [[s1 e1]|] eqn:Hs; [|done].
    destruct (exec s1 acts) as [[s2 e2]|] eqn:He2; [|done]. simplify_eq.
    destruct (earliest_publish_step _ _ _ _ _ _ Hs Ht)
      as (pc1 & Ht1 & Hclk & Hmono & Hnow).
    apply elem_of_app in Hin as [Hin|Hin].
    + rewrite (Hnow _ Hin). apply exec_clock_mono in He2. lia.
    + specialize (IH _ _ _ He2 Ht1 Hin). lia.
Qed.





(** X10: after a failed read the loop publishes nothing until its backoff
    and the pacing sleep after it are over: a loop in the backoff that ends
    at tick [w] stores no frame before tick [w + 1]. *)
Theorem no_publish_during_backoff s t w acts s' evs b :
  threads s !! t = Some (LBackoff w) →
  exec s acts = Some (s', evs) → EvPublish t b ∈ evs →
  w + pacing ≤ clock s'.
Proof.
  intros Ht He Hin.
  pose proof (publish_not_before _ _ _ _ _ _ _ He Ht Hin) as Hlb.
  simpl in Hlb. lia.
Qed.

Lemma no_publish_during_backoff_witness :
  threads cancelled_run.1 !! 0 = Some (LBackoff 60)
  ∧ exec cancelled_run.1 recovered_trace
    = Some (recovered_run.1, recovered_run.2)
  ∧ EvPublish 0 (demo_jpeg x02) ∈ recovered_run.2
  ∧ 60 + pacing ≤ clock recovered_run.1.
Proof.
  assert (exec cancelled_run.1 recovered_trace
          = Some (recovered_run.1, recovered_run.2)) as He
    by (vm_compute; reflexivity).
  assert (EvPublish 0 (demo_jpeg x02) ∈ recovered_run.2) as Hin
    by (apply list_elem_of_lookup; exists 7; vm_compute; reflexivity).
  split; [reflexivity|]. split; [exact He|]. split; [exact Hin|].
  exact (no_publish_during_backoff cancelled_run.1 0 60 _ _ _ _ eq_refl He Hin).
Defined.

(** ** A loop that has exited *)

Lemma exit_inv_step s log a s' evs :
  step s a = Some (s', evs) → exit_inv s log → exit_inv s' (log ++ evs).
Proof.
  intros Hs [Hex Hlog].
  step_inv Hs; unfold_updates; split;
    repeat match goal with
    | |- each_event _ (_ ++ []) => by apply each_event_nil
    | |- each_event _ (_ ++ [_]) => apply each_event_snoc; [done|]
    | |- each_event _ (_ ++ [_; _]) => apply each_event_snoc2; [done|..]
    | |- after_exit _ _ => simpl; try done
    | |- ∀ t, _ ∈ _ → _ =>
        let t' := fresh "t" in
        let Hin := fresh "Hin" in
        intros t' Hin; rewrite ?(right_id_L [] (++)) in Hin; simpl;
        try (apply elem_of_app in Hin as [Hin|Hin];
             [|repeat (apply elem_of_cons in Hin as [Hin|Hin]; simplify_eq);
               try (by apply elem_of_nil in Hin)])
    end;
    repeat match goal with
    | H : ?l !! ?i = Some _ |- context [<[?i := ?y]> ?l !! ?j] =>
        rewrite (lookup_moved l i j _ y H)
    | |- context [(?l ++ [?y]) !! ?j] => rewrite (lookup_spawned l j y)
    end;
    repeat case_decide; simplify_eq; eauto;
    try (match goal with
         | Hin : EvExit ?t ∈ log |- _ =>
             pose proof (Hex _ Hin) as Hst; try congruence;
             apply lookup_lt_Some in Hst; lia
         end);
    try (intros Hin; pose proof (Hex _ Hin); congruence).
Qed.

Lemma exit_inv_reachable s log : reachable s log → exit_inv s log.
Proof.
  induction 1 as [|s log a s' evs _ IH Hs].
  - split; [by intros t Hin; apply elem_of_nil in Hin|by intros [|i] e Hi].
  - by eapply exit_inv_step.
Qed.

(** X11: a capture loop that has exited is gone for good.  It exits once,
    stays exited, and every frame it has published was published before its
    exit. *)
Theorem exited_loop_is_silent s log t i :
  reachable s log → log !! i = Some (EvExit t) →
  threads s !! t = Some LExit
  ∧ (∀ j b, log !! j = Some (EvPublish t b) → j < i)
  ∧ (∀ j, log !! j = Some (EvExit t) → j = i).
Proof.
  intros Hr Hi. destruct (exit_inv_reachable s log Hr) as [Hex Hlog].
  assert (∀ j, i < j → EvExit t ∈ take j log) as Hseen.
  { intros j Hij. apply list_elem_of_lookup. exists i. by rewrite lookup_take_lt. }
  split_and!.
  - apply Hex. by eapply list_elem_of_lookup_2.
  - intros j b Hj. destruct (decide (j < i)) as [|Hge]; [done|].
    assert (i ≠ j) by (intros ->; congruence).
    destruct (Hlog j _ Hj). apply Hseen. lia.
  - intros j Hj. destruct (decide (j = i)) as [|Hne]; [done|].
    destruct (decide (i < j)).
    + destruct (Hlog j _ Hj). by apply Hseen.
    + destruct (Hlog i _ Hi). apply list_elem_of_lookup. exists j.
      rewrite lookup_take_lt by lia. done.
Qed.

Lemma exited_loop_is_silent_witness :
  reachable restart_run.1 (polling_run.2 ++ restart_run.2)
  ∧ (polling_run.2 ++ restart_run.2) !! 16 = Some (EvExit 0)
  ∧ (polling_run.2 ++ restart_run.2) !! 8 = Some (EvPublish 0 (demo_jpeg x01))
  ∧ threads restart_run.1 !! 0 = Some LExit
  ∧ (∀ j b, (polling_run.2 ++ restart_run.2) !! j = Some (EvPublish 0 b) → j < 16)
  ∧ (∀ j, (polling_run.2 ++ restart_run.2) !! j = Some (EvExit 0) → j = 16).
Proof.
  assert (reachable restart_run.1 (polling_run.2 ++ restart_run.2)) as Hr.
  { apply (exec_reachable polling_run.1 polling_run.2 restart_trace).
    - apply (exec_reachable0 polling_trace). vm_compute. reflexivity.
    - vm_compute. reflexivity. }
  split; [exact Hr|]. split; [reflexivity|]. split; [reflexivity|].
  exact (exited_loop_is_silent _ _ 0 16 Hr eq_refl).
Defined.

(** ** A new viewer *)

(** X12: a viewer that connects ([/video_feed]) while the frame slot is
    filled and the lock is free gets the current frame as its first chunk in
    four steps of its own generator, with no sleep before it, and leaves the
    lock free, the slot, the capture loops and the clock as they were. *)
Theorem new_viewer_gets_current_frame s b :
  output_frame (app s) = Some b → lock (app s) = None →
  ∃ s',
    exec s (Connect :: serve_chunk (length (sessions s)))
    = Some (s', [EvSnapshot (length (sessions s)) (Some b);
                 EvYield (length (sessions s)) (chunk b)])
    ∧ sessions s' = sessions s ++ [GSuspended]
    ∧ app s' = app s ∧ threads s' = threads s ∧ clock s' = clock s.
Proof.
  intros Hb Hl. set (g := length (sessions s)).
  assert (∀ l : list gen_pc, length l = S g → g < length l) as Hlt
    by (intros l ->; lia).
  eexists. split.
  - eapply (exec_step_then _ _ _ _ [] _ [_; _]); [reflexivity|].
    eapply (exec_step_then _ _ _ _ [] _ [_; _]).
    { erewrite step_session
        by (simpl; by rewrite lookup_app_r, Nat.sub_diag by lia).
      simpl. by rewrite Hl. }
    eapply (exec_step_then _ _ _ _ [_] _ [_]).
    { erewrite step_session
        by (simpl; apply list_lookup_insert_eq; rewrite length_app; simpl; lia).
      simpl. by rewrite Hb. }
    eapply (exec_step_then _ _ _ _ [] _ [_]).
    { by erewrite step_session
        by (simpl; apply list_lookup_insert_eq;
            rewrite !length_insert, length_app; simpl; lia). }
    eapply (exec_step_then _ _ _ _ [_] _ []); [|reflexivity].
    by erewrite step_session
      by (simpl; apply list_lookup_insert_eq;
          rewrite !length_insert, length_app; simpl; lia).
  - unfold_updates. split_and!; try done.
    + rewrite !list_insert_insert_eq.
      by rewrite insert_app_r_alt, Nat.sub_diag by (unfold g; lia).
    + destruct (app s); simpl in *. by subst.
Qed.

Lemma new_viewer_gets_current_frame_witness :
  output_frame (app polling_run.1) = Some (demo_jpeg x01)
  ∧ lock (app polling_run.1) = None
  ∧ ∃ s',
      exec polling_run.1 (Connect :: serve_chunk (length (sessions polling_run.1)))
      = Some (s', [EvSnapshot (length (sessions polling_run.1)) (Some (demo_jpeg x01));
                   EvYield (length (sessions polling_run.1)) (chunk (demo_jpeg x01))])
      ∧ sessions s' = sessions polling_run.1 ++ [GSuspended]
      ∧ app s' = app polling_run.1 ∧ threads s' = threads polling_run.1
      ∧ clock s' = clock polling_run.1.
Proof.
  split; [reflexivity|]. split; [reflexivity|].
  exact (new_viewer_gets_current_frame polling_run.1 _ eq_refl eq_refl).
Defined.

(** ** The framing of a chunk *)

(** X13: the framing of lines 54-55 adds 39 bytes and loses nothing: two
    chunks are equal only if they carry the same frame bytes, and the frame
    bytes are what is left of a chunk after its first 37 bytes and before
    its last 2. *)
Theorem chunk_carries_its_frame (b1 b2 : bytes) :
  length (chunk b1) = 39 + length b1
  ∧ take (length b1) (drop 37 (chunk b1)) = b1
  ∧ drop (37 + length b1) (chunk b1) = crlf
  ∧ (chunk b1 = chunk b2 → b1 = b2).
Proof.
  assert (∀ b, drop 37 (chunk b) = b ++ crlf) as Hdrop by done.
  split_and!.
  - unfold chunk. rewrite !length_app. simpl. lia.
  - by rewrite Hdrop, take_app_length.
  - by rewrite <-drop_drop, Hdrop, drop_app_length.
  - intros Heq. apply (f_equal (drop 37)) in Heq. rewrite !Hdrop in Heq.
    by apply app_inv_tail in Heq.
Qed.

Lemma chunk_carries_its_frame_witness :
  chunk (demo_jpeg x01) = chunk (demo_jpeg x01)
  ∧ length (chunk (demo_jpeg x01)) = 39 + length (demo_jpeg x01)
  ∧ take (length (demo_jpeg x01)) (drop 37 (chunk (demo_jpeg x01))) = demo_jpeg x01
  ∧ drop (37 + length (demo_jpeg x01)) (chunk (demo_jpeg x01)) = crlf
  ∧ (chunk (demo_jpeg x01) = chunk (demo_jpeg x01) → demo_jpeg x01 = demo_jpeg x01).
Proof.
  split; [reflexivity|].
  exact (chunk_carries_its_frame (demo_jpeg x01) (demo_jpeg x01)).
Defined.
